(** * HTML renderer of the markdown package: a shallow embedding

    The definitions below follow [html/renderer.go] function by function.
    Go's [[]byte] is a list of 8-bit characters, Go's [string] is a
    [string]; [int] is [Z].  A panic of the Go runtime is an explicit
    outcome of the functions that can raise one. *)

From Stdlib Require Import ZArith Ascii Bool Lia.
From stdpp Require Import base option list strings gmap pretty.

Set Default Proof Using "Type".

(** ** Bytes and strings *)

Abbreviation bytes := (list ascii).

(** [[]byte(s)] and [string(b)]. *)
Definition B (s : string) : bytes := String.list_ascii_of_string s.
Definition S_ (b : bytes) : string := String.string_of_list_ascii b.

(** The characters that a Rocq string literal cannot hold directly. *)
Definition DQ : string := String (ascii_of_nat 34) EmptyString.
Definition NL : string := String (ascii_of_nat 10) EmptyString.

Definition byte_leb (a b : ascii) : bool := (N_of_ascii a <=? N_of_ascii b)%N.

(** ** Outcomes: a value, a runtime panic, or a loop cut short by its fuel *)

Inductive panic : Type :=
  | IndexOutOfRange            (* b[i] with i >= len(b) *)
  | NilDereference             (* field of a nil *Node *)
  | TypeAssertion              (* x.(T) on a value of another type *)
  | UnknownNodeType (kind : string).

Inductive res (A : Type) : Type :=
  | Ok (a : A)
  | Panic (p : panic)
  | OutOfFuel.
Arguments Ok {A} a.
Arguments Panic {A} p.
Arguments OutOfFuel {A}.

Global Instance res_ret : MRet res := fun A a => Ok a.
Global Instance res_bind : MBind res := fun A C k m =>
  match m with
  | Ok a => k a
  | Panic p => Panic p
  | OutOfFuel => OutOfFuel
  end.

(** ** Character classes (renderer.go, end of file) *)

(** isLetter returns true if c is ascii letter *)
Definition isLetter (c : ascii) : bool :=
  (byte_leb "a" c && byte_leb c "z") || (byte_leb "A" c && byte_leb c "Z").

(** isAlnum returns true if c is a digit or letter *)
Definition isAlnum (c : ascii) : bool :=
  (byte_leb "0" c && byte_leb c "9") || isLetter c.

(** isSpace returns true if c is a white-space character *)
Definition isSpace (c : ascii) : bool :=
  bool_decide (c = " "%char) || bool_decide (c = ascii_of_nat 9)
  || bool_decide (c = ascii_of_nat 10) || bool_decide (c = ascii_of_nat 13)
  || bool_decide (c = ascii_of_nat 12) || bool_decide (c = ascii_of_nat 11).

(** ** slugify *)

(** The first loop of [slugify]: [sym] remembers that the last byte appended
    was the [-] standing for a run of other bytes. *)
Fixpoint slugify_collapse (inp : bytes) (sym : bool) (out : bytes) : bytes :=
  match inp with
  | [] => out
  | ch :: rest =>
      if isAlnum ch then slugify_collapse rest false (out ++ [ch])
      else if sym then slugify_collapse rest sym out
      else slugify_collapse rest true (out ++ ["-"%char])
  end.

(** [for a, ch = range out { if ch != '-' { break } }]: [a] is assigned the
    index of every element visited, so it keeps the last index when the loop
    runs to its end.  [i] is the index of the head of [out]. *)
Fixpoint slugify_first (out : bytes) (i a : nat) : nat :=
  match out with
  | [] => a
  | ch :: rest =>
      if bool_decide (ch ≠ "-"%char) then i else slugify_first rest (S i) i
  end.

(** [for b = len(out) - 1; b > 0; b-- { if out[b] != '-' { break } }], from
    the current value of [b]. *)
Fixpoint slugify_last (out : bytes) (b : nat) : nat :=
  match b with
  | 0 => 0
  | S b' =>
      match out !! b with
      | Some ch => if bool_decide (ch ≠ "-"%char) then b else slugify_last out b'
      | None => b
      end
  end.

(** [out[a:b]] for [a <= b <= len(out)]. *)
Definition slice (out : bytes) (a b : nat) : bytes := take (b - a) (drop a out).

Definition slugify (inp : bytes) : bytes :=
  if bool_decide (length inp = 0) then inp
  else
    let out := slugify_collapse inp false [] in
    let a := slugify_first out 0 0 in
    let b := slugify_last out (length out - 1) in
    slice out a (b + 1).

(** ** isSafeLink *)

(** [bytes.ToLower] on the ASCII range.  [isSafeLink] only compares its result
    with an ASCII prefix of the same length as its argument, and a byte
    outside ASCII never lowers to ASCII bytes of that length. *)
Definition toLowerByte (c : ascii) : ascii :=
  if byte_leb "A" c && byte_leb c "Z"
  then ascii_of_N (N_of_ascii c + 32) else c.
Definition bytesToLower (b : bytes) : bytes := map toLowerByte b.

Definition validUris : list bytes :=
  [B "http://"; B "https://"; B "ftp://"; B "mailto://"].
Definition validPaths : list bytes := [B "/"; B "./"; B "../"].

(** [isAlnum(link[i])], used where [i < len(link)] is known. *)
Definition alnumAt (link : bytes) (i : nat) : bool :=
  match link !! i with Some c => isAlnum c | None => false end.

Definition safePath (link path : bytes) : bool :=
  (length path <=? length link) && bool_decide (take (length path) link = path)
  && ((length link =? length path) || alnumAt link (length path)).

Definition safeUri (link prefix : bytes) : bool :=
  (length prefix <? length link)
  && bool_decide (bytesToLower (take (length prefix) link) = prefix)
  && alnumAt link (length prefix).

Definition isSafeLink (link : bytes) : bool :=
  existsb (safePath link) validPaths || existsb (safeUri link) validUris.

(** ** Scanning for an HTML tag *)

(** isPunctuation returns true if c is a punctuation symbol. *)
Definition isPunctuation (c : ascii) : bool :=
  existsb (fun r => bool_decide (c = r))
    (B "!" ++ [ascii_of_nat 34] ++ B "#$%&'()*+,-./:;<=>?@[\]^_`{|}~").

(** The loop of [skipSpace], with [rest] the bytes from index [i] on. *)
Fixpoint skipSpaceFrom (rest : bytes) (i : nat) : nat :=
  match rest with
  | c :: rest' => if isSpace c then skipSpaceFrom rest' (S i) else i
  | [] => i
  end.

(** A negative [i] is below [len(data)], so [data[i]] is read and panics. *)
Definition skipSpace (data : bytes) (i : Z) : res Z :=
  if (i <? 0)%Z then Panic IndexOutOfRange
  else Ok (Z.of_nat (skipSpaceFrom (drop (Z.to_nat i) data) (Z.to_nat i))).

(** The loop of [skipUntilCharIgnoreQuotes], with [rest] the bytes from index
    [i] on; the cases of the [switch] are tried in order. *)
Fixpoint skipUntilFrom (rest : bytes) (i start : nat) (char : ascii)
    (inSingleQuote inDoubleQuote inGraveQuote : bool) : nat :=
  match rest with
  | [] => start
  | c :: rest' =>
      if bool_decide (c = char) && negb inSingleQuote && negb inDoubleQuote
         && negb inGraveQuote
      then i
      else if bool_decide (c = "'"%char)
      then skipUntilFrom rest' (S i) start char (negb inSingleQuote) inDoubleQuote
             inGraveQuote
      else if bool_decide (c = ascii_of_nat 34)
      then skipUntilFrom rest' (S i) start char inSingleQuote (negb inDoubleQuote)
             inGraveQuote
      else if bool_decide (c = "`"%char)
      then skipUntilFrom rest' (S i) start char inSingleQuote inDoubleQuote
             (negb inGraveQuote)
      else skipUntilFrom rest' (S i) start char inSingleQuote inDoubleQuote
             inGraveQuote
  end.

Definition skipUntilCharIgnoreQuotes (html : bytes) (start : Z) (char : ascii) : res Z :=
  if (start <? 0)%Z then Panic IndexOutOfRange
  else Ok (Z.of_nat (skipUntilFrom (drop (Z.to_nat start) html) (Z.to_nat start)
                       (Z.to_nat start) char false false false)).

(** [strings.ToLower(string(b))[0]]: the conversion of a byte to a string
    gives the UTF-8 encoding of the code point of that value, which for a
    byte outside ASCII starts with 0xC2 (below 0xC0) or 0xC3, also once
    lowered. *)
Definition lowerFirst (b : ascii) : ascii :=
  if byte_leb b (ascii_of_nat 127) then toLowerByte b
  else if byte_leb b (ascii_of_nat 191) then ascii_of_nat 194
  else ascii_of_nat 195.

(** The loop over the tag name in [findHTMLTagPos]: [rest] holds the bytes
    from index [i] on, [name] the bytes of [tagname] from index [j] on;
    [None] is the [return false, -1] inside the loop. *)
Fixpoint tagNameLoop (rest : bytes) (i : nat) (name : bytes) : option nat :=
  match rest with
  | [] => Some i
  | c :: rest' =>
      match name with
      | [] => Some i
      | n :: name' =>
          if bool_decide (lowerFirst c ≠ n) then None
          else tagNameLoop rest' (S i) name'
      end
  end.

Definition findHTMLTagPos (tag : bytes) (tagname : string) : res (bool * Z) :=
  if (0 <? length tag) && bool_decide (tag !! 0 ≠ Some "<"%char)
  then Ok (false, (-1)%Z)
  else
    i ← skipSpace tag 1;
    let i := if (i <? Z.of_nat (length tag))%Z
                && bool_decide (tag !! Z.to_nat i = Some "/"%char)
             then (i + 1)%Z else i in
    i ← skipSpace tag i;
    match tagNameLoop (drop (Z.to_nat i) tag) (Z.to_nat i) (B tagname) with
    | None => Ok (false, (-1)%Z)
    | Some i =>
        if bool_decide (i = length tag) then Ok (false, (-1)%Z)
        else
          rightAngle ← skipUntilCharIgnoreQuotes tag (Z.of_nat i) ">";
          if (Z.of_nat i <=? rightAngle)%Z then Ok (true, rightAngle)
          else Ok (false, (-1)%Z)
    end.

Definition isHTMLTag (tag : bytes) (tagname : string) : res bool :=
  '(found, _) ← findHTMLTagPos tag tagname;
  Ok found.

(** ** isRelativeLink *)

Definition hasPrefix (b p : bytes) : bool :=
  (length p <=? length b) && bool_decide (take (length p) b = p).

(** [link[0]] is read before any length test. *)
Definition isRelativeLink (link : bytes) : res bool :=
  match link with
  | [] => Panic IndexOutOfRange
  | c0 :: _ =>
      if bool_decide (c0 = "#"%char) then Ok true
      else if (2 <=? length link) && bool_decide (c0 = "/"%char)
              && bool_decide (link !! 1 ≠ Some "/"%char) then Ok true
      else if (length link =? 1) && bool_decide (c0 = "/"%char) then Ok true
      else if hasPrefix link (B "./") then Ok true
      else if hasPrefix link (B "../") then Ok true
      else Ok false
  end.

(** ** The raw-tag pattern [htmlTagRe]

    Go's [regexp] finds the match a backtracking search finds first: the
    left alternative before the right one, a greedy repetition taking as
    much as it can before giving back, a lazy one as little.  [re_match]
    is that search, with the rest of the pattern as a continuation. *)

Inductive regex : Type :=
  | Eps
  | Cls (p : ascii -> bool)
  | Cat (r1 r2 : regex)
  | Alt (r1 r2 : regex)
  | Star (greedy : bool) (r : regex).

Fixpoint re_match (fuel : nat) : regex -> bytes -> (bytes -> option bytes) -> option bytes :=
  fix go (r : regex) (s : bytes) (k : bytes -> option bytes) {struct r} : option bytes :=
    match r with
    | Eps => k s
    | Cls p =>
        match s with
        | c :: s' => if p c then k s' else None
        | [] => None
        end
    | Cat r1 r2 => go r1 s (fun s' => go r2 s' k)
    | Alt r1 r2 =>
        match go r1 s k with
        | Some rest => Some rest
        | None => go r2 s k
        end
    | Star greedy r1 =>
        match fuel with
        | 0 => None
        | S fuel' =>
            let again :=
              go r1 s (fun s' =>
                if length s' <? length s
                then re_match fuel' (Star greedy r1) s' k else None) in
            if greedy
            then match again with Some rest => Some rest | None => k s end
            else match k s with Some rest => Some rest | None => again end
        end
    end.

Definition Plus (r : regex) : regex := Cat r (Star true r).
Definition Opt (r : regex) : regex := Alt r Eps.
Definition Seq (rs : list regex) : regex := foldr Cat Eps rs.
Definition OneOf (rs : list regex) : regex :=
  match rs with
  | [] => Cls (fun _ => false)
  | r :: rs' => foldl Alt r rs'
  end.

Definition dq : ascii := ascii_of_nat 34.

(** The pattern is compiled with [(?i)]: a letter matches in both cases, and
    Go folds case over Unicode, where K also folds to U+212A and S to
    U+017F (the only characters outside ASCII that fold to an ASCII
    letter). *)
Definition Chr (c : ascii) : regex :=
  Cls (fun x => bool_decide (toLowerByte x = toLowerByte c)).
Definition Lit (s : string) : regex := Seq (map Chr (B s)).
Definition foldedLetter : regex :=
  Alt (Seq [Cls (fun x => bool_decide (x = ascii_of_nat 226));
            Cls (fun x => bool_decide (x = ascii_of_nat 132));
            Cls (fun x => bool_decide (x = ascii_of_nat 170))])
      (Seq [Cls (fun x => bool_decide (x = ascii_of_nat 197));
            Cls (fun x => bool_decide (x = ascii_of_nat 191))]).
(** A class that holds all the ASCII letters, and [p] besides. *)
Definition LetterOr (p : ascii -> bool) : regex :=
  Alt (Cls (fun x => isLetter x || p x)) foldedLetter.
Definition elemb (cs : string) (x : ascii) : bool := bool_decide (x ∈ B cs).

(** [\s] is [[\t\n\f\r ]]. *)
Definition reSpace : regex :=
  Cls (fun x => bool_decide (x ∈ [ascii_of_nat 9; ascii_of_nat 10;
                                  ascii_of_nat 12; ascii_of_nat 13; " "%char])).

Definition tagName : regex :=
  Cat (LetterOr (fun _ => false))
      (Star true (LetterOr (fun x => (byte_leb "0" x && byte_leb x "9") || elemb "-" x))).
Definition unquotedValue : regex :=
  Plus (Cls (fun x => negb (bool_decide (x = dq) || elemb "'=<>`" x
                            || byte_leb x (ascii_of_nat 32)))).
Definition singleQuotedValue : regex :=
  Seq [Chr "'"; Star true (Cls (fun x => negb (bool_decide (x = "'"%char)))); Chr "'"].
Definition doubleQuotedValue : regex :=
  Seq [Chr dq; Star true (Cls (fun x => negb (bool_decide (x = dq)))); Chr dq].
Definition processingInstruction : regex :=
  Seq [Chr "<"; Chr "?";
       Star false (Cls (fun x => negb (bool_decide (x = ascii_of_nat 10))));
       Chr "?"; Chr ">"].
Definition htmlComment1 : regex := Lit "<!---->".
Definition htmlComment2 : regex :=
  Seq [Lit "<!--";
       Cat (Opt (Chr "-")) (Cls (fun x => negb (elemb ">-" x)));
       Star true (Cat (Opt (Chr "-")) (Cls (fun x => negb (elemb "-" x))));
       Lit "-->"].
Definition declaration : regex :=
  Seq [Lit "<!"; Plus (LetterOr (fun _ => false)); Plus reSpace;
       Star true (Cls (fun x => negb (elemb ">" x))); Chr ">"].
Definition cdata : regex :=
  Seq [Lit "<![CDATA["; Star false (Cls (fun _ => true)); Lit "]]>"].
Definition attributeName : regex :=
  Cat (LetterOr (elemb "_:"))
      (Star true (LetterOr (fun x => (byte_leb "0" x && byte_leb x "9") || elemb ":._-" x))).
Definition attributeValue : regex :=
  OneOf [unquotedValue; singleQuotedValue; doubleQuotedValue].
Definition attributeValueSpec : regex :=
  Seq [Star true reSpace; Chr "="; Star true reSpace; attributeValue].
Definition attribute : regex :=
  Seq [Plus reSpace; attributeName; Opt attributeValueSpec].
Definition openTag : regex :=
  Seq [Chr "<"; tagName; Star true attribute; Star true reSpace; Opt (Chr "/"); Chr ">"].
Definition closeTag : regex :=
  Seq [Lit "</"; tagName; Star true reSpace; Chr ">"].
Definition htmlTag : regex :=
  OneOf [openTag; closeTag; htmlComment1; htmlComment2;
         processingInstruction; declaration; cdata].

(** [htmlTagRe.ReplaceAll(d, []byte{})].  The pattern starts with [^] and
    cannot match the empty string, so the only match there can be is the one
    at the start of [d]; it is removed. *)
Definition stripTags (d : bytes) : bytes :=
  match re_match (S (length d)) htmlTag d Some with
  | Some rest => rest
  | None => d
  end.

(** ** Flags *)

Definition FlagsNone : Z := 0.
Definition SkipHTML : Z := Z.shiftl 1 1.
Definition SkipImages : Z := Z.shiftl 1 2.
Definition SkipLinks : Z := Z.shiftl 1 3.
Definition Safelink : Z := Z.shiftl 1 4.
Definition NofollowLinks : Z := Z.shiftl 1 5.
Definition NoreferrerLinks : Z := Z.shiftl 1 6.
Definition HrefTargetBlank : Z := Z.shiftl 1 7.
Definition CompletePage : Z := Z.shiftl 1 8.
Definition UseXHTML : Z := Z.shiftl 1 9.
Definition FootnoteReturnLinks : Z := Z.shiftl 1 10.
Definition Smartypants : Z := Z.shiftl 1 11.
Definition SmartypantsFractions : Z := Z.shiftl 1 12.
Definition SmartypantsDashes : Z := Z.shiftl 1 13.
Definition SmartypantsLatexDashes : Z := Z.shiftl 1 14.
Definition SmartypantsAngledQuotes : Z := Z.shiftl 1 15.
Definition SmartypantsQuotesNBSP : Z := Z.shiftl 1 16.
Definition TOC : Z := Z.shiftl 1 17.

(** [flags&f != 0] *)
Definition has (flags f : Z) : bool := negb (Z.land flags f =? 0)%Z.

(** Go's [int] is 64 bits wide; [x++] and [x--] wrap around. *)
Definition wrap64 (x : Z) : Z :=
  ((x + 2 ^ 63) mod 2 ^ 64 - 2 ^ 63)%Z.
Definition inInt (x : Z) : Prop := (- 2 ^ 63 <= x < 2 ^ 63)%Z.

(** ** The tree (package [ast], seen from the renderer) *)

(** Modelled from the spec: [ast.ListType] is declared outside this file.
    It holds the ordering flag, the definition-list flag and the term flag;
    the renderer tests them one at a time ([ListFlags&ast.ListTypeX != 0]),
    so the set is one boolean per flag. *)
Record ListType : Type := {
  ListTypeOrdered : bool;
  ListTypeDefinition : bool;
  ListTypeTerm : bool
}.

(** Modelled from the spec: [ast.CellAlignFlags], the alignment enum that
    [cellAlignment] switches on. *)
Inductive CellAlignFlags : Type :=
  | TableAlignmentLeft | TableAlignmentRight | TableAlignmentCenter
  | TableAlignmentNone.

Inductive WalkStatus : Type := GoToNext | SkipChildren | Terminate.

Global Instance WalkStatus_eq_dec : EqDecision WalkStatus.
Proof. solve_decision. Defined.

(** The node kinds, with the fields the renderer reads.  [ImageData]'s title
    and [ListItemData]'s reference link are compared with [nil], so they are
    optional; [OtherData] is any other implementation of [ast.NodeData]. *)
Inductive NodeData : Type :=
  | TextData
  | SoftbreakData
  | HardbreakData
  | EmphData
  | StrongData
  | DelData
  | BlockQuoteData
  | LinkData (Destination Title : bytes) (NoteID : Z)
  | ImageData (Destination : bytes) (Title : option bytes)
  | CodeData
  | CodeBlockData (Info : bytes)
  | DocumentData
  | ParagraphData
  | HTMLSpanData
  | HTMLBlockData
  | HeadingData (Level : Z) (HeadingID : string) (IsTitleblock : bool)
  | HorizontalRuleData
  | ListData (ListFlags : ListType) (Tight IsFootnotesList : bool)
  | ListItemData (ListFlags : ListType) (RefLink : option bytes)
  | TableData
  | TableCellData (IsHeader : bool) (Align : CellAlignFlags)
  | TableHeadData
  | TableBodyData
  | TableRowData
  | OtherData (kind : string).

Inductive Node : Type :=
  MkNode (data : NodeData) (literal : bytes) (children : list Node).

Definition Data (n : Node) : NodeData := let 'MkNode d _ _ := n in d.
Definition Literal (n : Node) : bytes := let 'MkNode _ l _ := n in l.
Definition Children (n : Node) : list Node := let 'MkNode _ _ c := n in c.

(** A [*ast.Node] as the renderer meets it: the node, the data of its
    ancestors from [node.Parent] upwards, and what [node.Prev()] and
    [node.Next()] return. *)
Record Cursor : Type := {
  node : Node;
  ancestors : list NodeData;
  Prev : option Node;
  Next : option Node
}.

(** [node.Parent] and [node.Parent.Parent] ([None] is [nil]). *)
Definition Parent (c : Cursor) : option NodeData := ancestors c !! 0.
Definition Grandparent (c : Cursor) : option NodeData := ancestors c !! 1.

(** [p.Data] for a [*ast.Node] [p] that may be [nil]. *)
Definition deref (p : option NodeData) : res NodeData :=
  match p with
  | Some d => Ok d
  | None => Panic NilDereference
  end.

Definition isListData (d : NodeData) : bool :=
  match d with ListData _ _ _ => true | _ => false end.
Definition isListTight (d : NodeData) : bool :=
  match d with ListData _ t _ => t | _ => false end.
Definition isListItemData (d : NodeData) : bool :=
  match d with ListItemData _ _ => true | _ => false end.
Definition isListItemTerm (d : NodeData) : bool :=
  match d with ListItemData f _ => ListTypeTerm f | _ => false end.
Definition isLinkData (d : NodeData) : bool :=
  match d with LinkData _ _ _ => true | _ => false end.
Definition isBlockQuoteData (d : NodeData) : bool :=
  match d with BlockQuoteData => true | _ => false end.
Definition isDocumentData (d : NodeData) : bool :=
  match d with DocumentData => true | _ => false end.

(** ** The renderer *)

(** [RenderNodeFunc]: what the hook writes to [w], and its two results. *)
Definition RenderNodeFunc : Type := Cursor -> bool -> bytes * WalkStatus * bool.

Record RendererOptions : Type := {
  AbsolutePrefix : string;
  FootnoteAnchorPrefix : string;
  FootnoteReturnLinkContents : string;
  HeadingIDPrefix : string;
  HeadingIDSuffix : string;
  Title : string;
  CSS : string;
  Icon : string;
  Flags : Z;
  RenderNodeHook : option RenderNodeFunc
}.

(** [sr] is the smartypants renderer, given by what [sr.Process] writes. *)
Record Renderer : Type := {
  opts : RendererOptions;
  closeTag_ : string;
  headingIDs : gmap string Z;
  lastOutputLen : Z;
  disableTags : Z;
  sr : bytes -> bytes
}.

Definition set_lastOutputLen (n : Z) (r : Renderer) : Renderer :=
  {| opts := opts r; closeTag_ := closeTag_ r; headingIDs := headingIDs r;
     lastOutputLen := n; disableTags := disableTags r; sr := sr r |}.
Definition set_disableTags (n : Z) (r : Renderer) : Renderer :=
  {| opts := opts r; closeTag_ := closeTag_ r; headingIDs := headingIDs r;
     lastOutputLen := lastOutputLen r; disableTags := n; sr := sr r |}.
Definition set_headingIDs (m : gmap string Z) (r : Renderer) : Renderer :=
  {| opts := opts r; closeTag_ := closeTag_ r; headingIDs := m;
     lastOutputLen := lastOutputLen r; disableTags := disableTags r; sr := sr r |}.

(** A method of the renderer that writes to [w]: the renderer and the bytes
    written to [w] so far are threaded through. *)
Definition state : Type := Renderer * bytes.
Definition M (A : Type) : Type := state -> res (A * state).

Global Instance M_ret : MRet M := fun A a st => Ok (a, st).
Global Instance M_bind : MBind M := fun A C k m st =>
  match m st with
  | Ok (a, st') => k a st'
  | Panic p => Panic p
  | OutOfFuel => OutOfFuel
  end.

Definition lift {A} (x : res A) : M A := fun st => a ← x; Ok (a, st).
Definition getR : M Renderer := fun st => Ok (st.1, st).
Definition modR (f : Renderer -> Renderer) : M unit :=
  fun st => Ok (tt, (f st.1, st.2)).
(** [w.Write(d)] and [io.WriteString(w, s)] *)
Definition write (d : bytes) : M unit := fun st => Ok (tt, (st.1, st.2 ++ d)).
Definition writeString (s : string) : M unit := write (B s).
Definition when (b : bool) (m : M unit) : M unit := if b then m else mret tt.

Definition len (s : string) : Z := Z.of_nat (String.length s).

(** [strings.Join] *)
Fixpoint join (l : list string) (sep : string) : string :=
  match l with
  | [] => ""
  | [x] => x
  | x :: rest => x +:+ sep +:+ join rest sep
  end.

(** [strconv.Itoa], and [%d] of [fmt.Sprintf] *)
Definition Itoa (n : Z) : string := pretty n.

(** [%q] of [fmt.Sprintf], for a string of printable ASCII characters other
    than the double quote and the backslash: the string between double
    quotes. *)
Definition quoted (s : string) : string := DQ +:+ s +:+ DQ.

(** ** Heading identifiers *)

(** The [for] loop of [ensureUniqueHeadingID]: one iteration per unit of
    fuel, from the test [found] on. *)
Fixpoint uniqueLoop (fuel : nat) (ids : gmap string Z) (id : string)
  : res (string * gmap string Z) :=
  match fuel with
  | 0 => OutOfFuel
  | S fuel' =>
      match ids !! id with
      | None => Ok (id, ids)
      | Some count =>
          let tmp := id +:+ "-" +:+ Itoa (wrap64 (count + 1)) in
          match ids !! tmp with
          | None => uniqueLoop fuel' (<[id := wrap64 (count + 1)]> ids) tmp
          | Some _ => uniqueLoop fuel' ids (id +:+ "-1")
          end
      end
  end.

(** The length of the longest registered identifier bounds the number of
    iterations. *)
Definition maxKeyLen (ids : gmap string Z) : nat :=
  foldr (fun kv n => String.length kv.1 `max` n) 0 (map_to_list ids).

Definition ensureUniqueHeadingID (id : string) : M string := fun st =>
  let r := st.1 in
  '(id', ids) ← uniqueLoop (maxKeyLen (headingIDs r) + 3) (headingIDs r) id;
  let ids' := match ids !! id' with None => <[id' := 0%Z]> ids | Some _ => ids end in
  Ok (id', (set_headingIDs ids' r, st.2)).

(** ** Links *)

Definition addAbsPrefix (link : bytes) : M bytes :=
  r ← getR;
  if bool_decide (AbsolutePrefix (opts r) ≠ "") then
    rel ← lift (isRelativeLink link);
    if rel && bool_decide (link !! 0 ≠ Some "."%char) then
      let newDest := AbsolutePrefix (opts r) in
      let newDest :=
        if bool_decide (link !! 0 ≠ Some "/"%char) then newDest +:+ "/" else newDest in
      mret (B (newDest +:+ S_ link))
    else mret link
  else mret link.

Definition appendLinkAttrs (attrs : list string) (flags : Z) (link : bytes)
  : res (list string) :=
  rel ← isRelativeLink link;
  if rel : bool then Ok attrs
  else
    let val := if has flags NofollowLinks then ["nofollow"] else [] in
    let val := if has flags NoreferrerLinks then val ++ ["noreferrer"] else val in
    let attrs :=
      if has flags HrefTargetBlank
      then attrs ++ ["target=" +:+ quoted "_blank"] else attrs in
    if bool_decide (length val = 0) then Ok attrs
    else Ok (attrs ++ ["rel=" +:+ quoted (join val " ")]).

Definition isMailto (link : bytes) : bool := hasPrefix link (B "mailto:").

Definition needSkipLink (flags : Z) (dest : bytes) : bool :=
  if has flags SkipLinks then true
  else has flags Safelink && negb (isSafeLink dest) && negb (isMailto dest).

Definition isSmartypantable (c : Cursor) : res bool :=
  p ← deref (Parent c);
  match p with
  | LinkData _ _ _ | CodeBlockData _ | CodeData => Ok false
  | _ => Ok true
  end.

(** [bytes.IndexAny(info, "\t ")], as the length of the prefix before the
    first tab or space. *)
Fixpoint endOfLang (info : bytes) : nat :=
  match info with
  | [] => 0
  | c :: rest =>
      if bool_decide (c = ascii_of_nat 9) || bool_decide (c = " "%char)
      then 0 else S (endOfLang rest)
  end.

Definition appendLanguageAttr (attrs : list string) (info : bytes) : list string :=
  if bool_decide (length info = 0) then attrs
  else attrs ++ ["class=" +:+ DQ +:+ "language-" +:+ S_ (take (endOfLang info) info) +:+ DQ].

Definition footnoteRef (prefix : string) (Destination : bytes) (NoteID : Z) : string :=
  let urlFrag := prefix +:+ S_ (slugify Destination) in
  let nStr := Itoa NoteID in
  let anchor := "<a rel=" +:+ quoted "footnote" +:+ " href=" +:+ DQ +:+ "#fn:"
                +:+ urlFrag +:+ DQ +:+ ">" +:+ nStr +:+ "</a>" in
  "<sup class=" +:+ quoted "footnote-ref" +:+ " id=" +:+ DQ +:+ "fnref:" +:+ urlFrag
  +:+ DQ +:+ ">" +:+ anchor +:+ "</sup>".

Definition footnoteItem (prefix : string) (slug : bytes) : string :=
  "<li id=" +:+ DQ +:+ "fn:" +:+ prefix +:+ S_ slug +:+ DQ +:+ ">".

Definition footnoteReturnLink (prefix returnLink : string) (slug : bytes) : string :=
  " <a class=" +:+ quoted "footnote-return" +:+ " href=" +:+ DQ +:+ "#fnref:"
  +:+ prefix +:+ S_ slug +:+ DQ +:+ ">" +:+ returnLink +:+ "</a>".

Definition itemOpenCR (c : Cursor) : res bool :=
  match Prev c with
  | None => Ok false
  | Some _ =>
      p ← deref (Parent c);
      match p with
      | ListData flags tight _ => Ok (negb tight && negb (ListTypeDefinition flags))
      | _ => Panic TypeAssertion
      end
  end.

Definition skipParagraphTags (c : Cursor) : res bool :=
  parent ← deref (Parent c);
  match Grandparent c with
  | None => Ok false
  | Some grandparent =>
      if negb (isListData grandparent) then Ok false
      else
        let isParentTerm := isListItemTerm parent in
        match grandparent with
        | ListData _ tight _ => Ok (tight || isParentTerm)
        | _ => Panic TypeAssertion
        end
  end.

Definition cellAlignment (align : CellAlignFlags) : string :=
  match align with
  | TableAlignmentLeft => "left"
  | TableAlignmentRight => "right"
  | TableAlignmentCenter => "center"
  | TableAlignmentNone => ""
  end.

(** ** The output sink *)

Definition out (d : bytes) : M unit :=
  modR (set_lastOutputLen (Z.of_nat (length d)));;
  r ← getR;
  write (if (0 <? disableTags r)%Z then stripTags d else d).

Definition outs (s : string) : M unit :=
  modR (set_lastOutputLen (len s));;
  r ← getR;
  writeString (if (0 <? disableTags r)%Z then S_ (stripTags (B s)) else s).

Definition cr : M unit :=
  r ← getR;
  when (0 <? lastOutputLen r)%Z (outs NL).

Definition outTag (name : string) (attrs : list string) : M unit :=
  let s := if 0 <? length attrs then " " +:+ join attrs " " else "" in
  writeString (name +:+ s +:+ ">");;
  modR (set_lastOutputLen 1).

Definition outOneOf (outFirst : bool) (first second : string) : M unit :=
  if outFirst then outs first else outs second.

Definition outOneOfCr (outFirst : bool) (first second : string) : M unit :=
  if outFirst then cr;; outs first else outs second;; cr.

Definition openHTags : list string := ["<h1"; "<h2"; "<h3"; "<h4"; "<h5"].
Definition closeHTags : list string := ["</h1>"; "</h2>"; "</h3>"; "</h4>"; "</h5>"].

Definition headingOpenTagFromLevel (level : Z) : string :=
  if (level <? 1)%Z || (5 <? level)%Z then "<h6"
  else default "<h6" (openHTags !! Z.to_nat (level - 1)).

Definition headingCloseTagFromLevel (level : Z) : string :=
  if (level <? 1)%Z || (5 <? level)%Z then "</h6>"
  else default "</h6>" (closeHTags !! Z.to_nat (level - 1)).

(** ** The tree walk *)

(** Modelled from the spec: the container kinds, which the walk of package
    [ast] visits twice.  They are the kinds whose renderer is given
    [entering]; the others are leaves. *)
Definition isContainer (d : NodeData) : bool :=
  match d with
  | TextData | SoftbreakData | HardbreakData | CodeData | CodeBlockData _
  | HTMLSpanData | HTMLBlockData | HorizontalRuleData | OtherData _ => false
  | _ => true
  end.

Section Walk.
Context {St : Type}.

(** The callback: its walk status, the data of the node as it leaves it (the
    table of contents reassigns heading identifiers), and its own state. *)
Variable visit : Cursor -> bool -> St -> res (WalkStatus * NodeData * St).

(** Modelled from the spec: [Node.WalkFunc] of package [ast].  Every node is
    visited in document order, a container on the way down ([entering]) and
    on the way up, a leaf once; [SkipChildren] leaves out the children of the
    node, [Terminate] ends the walk there.  The first result tells that the
    walk was terminated; the second is the tree after the walk. *)
Fixpoint Walk (anc : list NodeData) (prev next : option Node) (n : Node) (s : St)
  {struct n} : res (bool * Node * St) :=
  match n with
  | MkNode d lit cs =>
      '(status, d1, s1) ← visit (Build_Cursor n anc prev next) true s;
      if negb (isContainer d) then
        Ok (bool_decide (status = Terminate), MkNode d1 lit cs, s1)
      else
        match status with
        | Terminate => Ok (true, MkNode d1 lit cs, s1)
        | _ =>
            '(stop, cs', s2) ←
              match status with
              | SkipChildren => Ok (false, cs, s1)
              | _ =>
                  (fix children (done todo : list Node) (s : St) {struct todo}
                     : res (bool * list Node * St) :=
                     match todo with
                     | [] => Ok (false, rev done, s)
                     | ch :: rest =>
                         '(stop, ch', s') ←
                           Walk (d1 :: anc) (head done) (head rest) ch s;
                         if stop : bool
                         then Ok (true, rev_append done (ch' :: rest), s')
                         else children (ch' :: done) rest s'
                     end) [] cs s1
              end;
            if stop : bool then Ok (true, MkNode d1 lit cs', s2)
            else
              '(status', d2, s3) ←
                visit (Build_Cursor (MkNode d1 lit cs') anc prev next) false s2;
              Ok (bool_decide (status' = Terminate), MkNode d2 lit cs', s3)
        end
  end.

(** The loop over the children inside [Walk], from the child at the head of
    [todo] on; [done] holds the children already walked, the last one first. *)
Definition WalkChildren (anc : list NodeData)
  : list Node -> list Node -> St -> res (bool * list Node * St) :=
  fix children (done todo : list Node) (s : St) {struct todo}
    : res (bool * list Node * St) :=
    match todo with
    | [] => Ok (false, rev done, s)
    | ch :: rest =>
        '(stop, ch', s') ← Walk anc (head done) (head rest) ch s;
        if stop : bool
        then Ok (true, rev_append done (ch' :: rest), s')
        else children (ch' :: done) rest s'
    end.

End Walk.

(** ** The node renderers *)

Section Renderers.

(** The escaping primitives live in another file of the package: what
    [EscapeHTML(w, d)] and [escLink(w, d)] write to [w] is a parameter, and so
    is the constructor of the smartypants renderer. *)
Variable EscapeHTML : bytes -> bytes.
Variable escLink : bytes -> bytes.
Variable NewSmartypantsRenderer : Z -> bytes -> bytes.

Definition NewRenderer (o : RendererOptions) : Renderer :=
  let closeTag := if has (Flags o) UseXHTML then " />" else ">" in
  let returnLink :=
    if bool_decide (FootnoteReturnLinkContents o = "")
    then "<sup>[return]</sup>" else FootnoteReturnLinkContents o in
  {| opts := {| AbsolutePrefix := AbsolutePrefix o;
                FootnoteAnchorPrefix := FootnoteAnchorPrefix o;
                FootnoteReturnLinkContents := returnLink;
                HeadingIDPrefix := HeadingIDPrefix o;
                HeadingIDSuffix := HeadingIDSuffix o;
                Title := Title o; CSS := CSS o; Icon := Icon o;
                Flags := Flags o; RenderNodeHook := RenderNodeHook o |};
     closeTag_ := closeTag;
     headingIDs := ∅;
     lastOutputLen := 0;
     disableTags := 0;
     sr := NewSmartypantsRenderer (Flags o) |}.

Definition outHRTag : M unit :=
  r ← getR;
  outOneOf (negb (has (Flags (opts r)) UseXHTML)) "<hr>" "<hr />".

Definition text (c : Cursor) : M unit :=
  r ← getR;
  if has (Flags (opts r)) Smartypants then
    write (sr r (EscapeHTML (Literal (node c))))
  else
    parent ← lift (deref (Parent c));
    if isLinkData parent then write (escLink (Literal (node c)))
    else write (EscapeHTML (Literal (node c))).

Definition hardBreak : M unit :=
  r ← getR;
  outOneOf (negb (has (Flags (opts r)) UseXHTML)) "<br>" "<br />";;
  cr.

Definition span (c : Cursor) : M unit :=
  r ← getR;
  when (negb (has (Flags (opts r)) SkipHTML)) (out (Literal (node c))).

Definition linkEnter (Destination Title : bytes) (NoteID : Z) : M unit :=
  dest ← addAbsPrefix Destination;
  let attrs := ["href=" +:+ DQ +:+ S_ (escLink dest) +:+ DQ] in
  r ← getR;
  if bool_decide (NoteID ≠ 0%Z) then
    outs (footnoteRef (FootnoteAnchorPrefix (opts r)) Destination NoteID)
  else
    attrs ← lift (appendLinkAttrs attrs (Flags (opts r)) dest);
    let attrs :=
      if 0 <? length Title
      then attrs ++ ["title=" +:+ DQ +:+ S_ (EscapeHTML Title) +:+ DQ] else attrs in
    outTag "<a" attrs.

Definition linkExit (NoteID : Z) : M unit :=
  when (bool_decide (NoteID = 0%Z)) (outs "</a>").

Definition link (Destination Title : bytes) (NoteID : Z) (entering : bool) : M unit :=
  r ← getR;
  if needSkipLink (Flags (opts r)) Destination then
    outOneOf entering "<tt>" "</tt>"
  else if entering then linkEnter Destination Title NoteID
  else linkExit NoteID.

Definition incrDisableTags : M unit :=
  modR (fun r => set_disableTags (wrap64 (disableTags r + 1)) r).
Definition decrDisableTags : M unit :=
  modR (fun r => set_disableTags (wrap64 (disableTags r - 1)) r).

Definition imageEnter (Destination : bytes) : M unit :=
  dest ← addAbsPrefix Destination;
  r ← getR;
  when (disableTags r =? 0)%Z
    (outs ("<img src=" +:+ DQ);;
     write (escLink dest);;
     outs (DQ +:+ " alt=" +:+ DQ));;
  incrDisableTags.

Definition imageExit (Title : option bytes) : M unit :=
  decrDisableTags;;
  r ← getR;
  when (disableTags r =? 0)%Z
    (match Title with
     | Some t => outs (DQ +:+ " title=" +:+ DQ);; write (EscapeHTML t)
     | None => mret tt
     end;;
     outs (DQ +:+ " />")).

Definition image (Destination : bytes) (Title : option bytes) (entering : bool) : M unit :=
  if entering then imageEnter Destination else imageExit Title.

(** The kinds after which [paragraphEnter] starts a new line. *)
Definition isBlockBefore (d : NodeData) : bool :=
  match d with
  | HTMLBlockData | ListData _ _ _ | ParagraphData | HeadingData _ _ _
  | CodeBlockData _ | BlockQuoteData | HorizontalRuleData => true
  | _ => false
  end.

Definition paragraphEnter (c : Cursor) : M unit :=
  match Prev c with
  | Some prev => when (isBlockBefore (Data prev)) cr
  | None => mret tt
  end;;
  parent ← lift (deref (Parent c));
  when (isBlockQuoteData parent && bool_decide (Prev c = None)) cr;;
  outs "<p>".

Definition paragraphExit (c : Cursor) : M unit :=
  outs "</p>";;
  parent ← lift (deref (Parent c));
  when (negb (isListItemData parent && bool_decide (Next c = None))) cr.

Definition paragraph (c : Cursor) (entering : bool) : M unit :=
  skip ← lift (skipParagraphTags c);
  if skip : bool then mret tt
  else if entering then paragraphEnter c
  else paragraphExit c.

Definition code (c : Cursor) : M unit :=
  outs "<code>";;
  write (EscapeHTML (Literal (node c)));;
  outs "</code>".

Definition htmlBlock (c : Cursor) : M unit :=
  r ← getR;
  if has (Flags (opts r)) SkipHTML then mret tt
  else cr;; out (Literal (node c));; cr.

Definition headingEnter (Level : Z) (HeadingID : string) (IsTitleblock : bool) : M unit :=
  let attrs := if IsTitleblock then ["class=" +:+ quoted "title"] else [] in
  attrs ←
    (if bool_decide (HeadingID ≠ "") then
       id ← ensureUniqueHeadingID HeadingID;
       r ← getR;
       let id := if bool_decide (HeadingIDPrefix (opts r) ≠ "")
                 then HeadingIDPrefix (opts r) +:+ id else id in
       let id := if bool_decide (HeadingIDSuffix (opts r) ≠ "")
                 then id +:+ HeadingIDSuffix (opts r) else id in
       mret (attrs ++ ["id=" +:+ DQ +:+ id +:+ DQ])
     else mret attrs);
  cr;;
  outTag (headingOpenTagFromLevel Level) attrs.

Definition headingExit (c : Cursor) (Level : Z) : M unit :=
  outs (headingCloseTagFromLevel Level);;
  parent ← lift (deref (Parent c));
  when (negb (isListItemData parent && bool_decide (Next c = None))) cr.

Definition heading (c : Cursor) (Level : Z) (HeadingID : string) (IsTitleblock : bool)
    (entering : bool) : M unit :=
  if entering then headingEnter Level HeadingID IsTitleblock
  else headingExit c Level.

Definition horizontalRule : M unit := cr;; outHRTag;; cr.

Definition listEnter (c : Cursor) (ListFlags : ListType) (IsFootnotesList : bool) : M unit :=
  when IsFootnotesList
    (outs (NL +:+ "<div class=" +:+ quoted "footnotes" +:+ ">" +:+ NL +:+ NL);;
     outHRTag;;
     cr);;
  cr;;
  parent ← lift (deref (Parent c));
  (if isListItemData parent then
     grand ← lift (deref (Grandparent c));
     when (isListTight grand) cr
   else mret tt);;
  let openTag := "<ul" in
  let openTag := if ListTypeOrdered ListFlags then "<ol" else openTag in
  let openTag := if ListTypeDefinition ListFlags then "<dl" else openTag in
  outTag openTag [];;
  cr.

Definition listExit (c : Cursor) (ListFlags : ListType) (IsFootnotesList : bool) : M unit :=
  let closeTag := "</ul>" in
  let closeTag := if ListTypeOrdered ListFlags then "</ol>" else closeTag in
  let closeTag := if ListTypeDefinition ListFlags then "</dl>" else closeTag in
  outs closeTag;;
  parent ← lift (deref (Parent c));
  when (isListItemData parent && negb (bool_decide (Next c = None))) cr;;
  when (isDocumentData parent || isBlockQuoteData parent) cr;;
  when IsFootnotesList (outs (NL +:+ "</div>" +:+ NL)).

Definition list_ (c : Cursor) (ListFlags : ListType) (IsFootnotesList : bool)
    (entering : bool) : M unit :=
  if entering then listEnter c ListFlags IsFootnotesList
  else listExit c ListFlags IsFootnotesList.

Definition listItemEnter (c : Cursor) (ListFlags : ListType) (RefLink : option bytes) : M unit :=
  openCR ← lift (itemOpenCR c);
  when openCR cr;;
  r ← getR;
  match RefLink with
  | Some ref =>
      let slug := slugify ref in
      outs (footnoteItem (FootnoteAnchorPrefix (opts r)) slug)
  | None =>
      let openTag := "<li>" in
      let openTag := if ListTypeDefinition ListFlags then "<dd>" else openTag in
      let openTag := if ListTypeTerm ListFlags then "<dt>" else openTag in
      outs openTag
  end.

Definition listItemExit (ListFlags : ListType) (RefLink : option bytes) : M unit :=
  r ← getR;
  match RefLink with
  | Some ref =>
      when (has (Flags (opts r)) FootnoteReturnLinks)
        (let slug := slugify ref in
         let prefix := FootnoteAnchorPrefix (opts r) in
         let link := FootnoteReturnLinkContents (opts r) in
         outs (footnoteReturnLink prefix link slug))
  | None => mret tt
  end;;
  let closeTag := "</li>" in
  let closeTag := if ListTypeDefinition ListFlags then "</dd>" else closeTag in
  let closeTag := if ListTypeTerm ListFlags then "</dt>" else closeTag in
  outs closeTag;;
  cr.

Definition listItem (c : Cursor) (ListFlags : ListType) (RefLink : option bytes)
    (entering : bool) : M unit :=
  if entering then listItemEnter c ListFlags RefLink
  else listItemExit ListFlags RefLink.

Definition codeBlock (c : Cursor) (Info : bytes) : M unit :=
  let attrs := appendLanguageAttr [] Info in
  cr;;
  outs "<pre>";;
  outTag "<code" attrs;;
  write (EscapeHTML (Literal (node c)));;
  outs "</code>";;
  outs "</pre>";;
  parent ← lift (deref (Parent c));
  when (negb (isListItemData parent)) cr.

Definition tableCell (c : Cursor) (IsHeader : bool) (Align : CellAlignFlags)
    (entering : bool) : M unit :=
  if negb entering then
    outOneOf IsHeader "</th>" "</td>";;
    cr
  else
    let openTag := if IsHeader then "<th" else "<td" in
    let align := cellAlignment Align in
    let attrs :=
      if bool_decide (align ≠ "") then ["align=" +:+ DQ +:+ align +:+ DQ] else [] in
    when (bool_decide (Prev c = None)) cr;;
    outTag openTag attrs.

Definition tableBody (c : Cursor) (entering : bool) : M unit :=
  if entering then
    cr;;
    outs "<tbody>";;
    when (bool_decide (Children (node c) = [])) cr
  else
    outs "</tbody>";;
    cr.

(** The type switch of [RenderNode]. *)
Definition renderKind (c : Cursor) (entering : bool) : M WalkStatus :=
  match Data (node c) with
  | TextData => text c;; mret GoToNext
  | SoftbreakData => cr;; mret GoToNext
  | HardbreakData => hardBreak;; mret GoToNext
  | EmphData => outOneOf entering "<em>" "</em>";; mret GoToNext
  | StrongData => outOneOf entering "<strong>" "</strong>";; mret GoToNext
  | DelData => outOneOf entering "<del>" "</del>";; mret GoToNext
  | BlockQuoteData =>
      outOneOfCr entering "<blockquote>" "</blockquote>";; mret GoToNext
  | LinkData dest title noteID => link dest title noteID entering;; mret GoToNext
  | ImageData dest title =>
      r ← getR;
      if has (Flags (opts r)) SkipImages then mret SkipChildren
      else image dest title entering;; mret GoToNext
  | CodeData => code c;; mret GoToNext
  | CodeBlockData info => codeBlock c info;; mret GoToNext
  | DocumentData => mret GoToNext
  | ParagraphData => paragraph c entering;; mret GoToNext
  | HTMLSpanData => span c;; mret GoToNext
  | HTMLBlockData => htmlBlock c;; mret GoToNext
  | HeadingData level id titleblock =>
      heading c level id titleblock entering;; mret GoToNext
  | HorizontalRuleData => horizontalRule;; mret GoToNext
  | ListData flags _ footnotes => list_ c flags footnotes entering;; mret GoToNext
  | ListItemData flags ref => listItem c flags ref entering;; mret GoToNext
  | TableData => outOneOfCr entering "<table>" "</table>";; mret GoToNext
  | TableCellData header align => tableCell c header align entering;; mret GoToNext
  | TableHeadData => outOneOfCr entering "<thead>" "</thead>";; mret GoToNext
  | TableBodyData => tableBody c entering;; mret GoToNext
  | TableRowData => outOneOfCr entering "<tr>" "</tr>";; mret GoToNext
  | OtherData kind => fun _ => Panic (UnknownNodeType kind)
  end.

Definition RenderNode (c : Cursor) (entering : bool) : M WalkStatus :=
  r ← getR;
  match RenderNodeHook (opts r) with
  | Some hook =>
      let '(written, status, didHandle) := hook c entering in
      write written;;
      if didHandle then mret status else renderKind c entering
  | None => renderKind c entering
  end.

(** ** The table of contents *)

Definition tocOpen : string := NL +:+ "<ul>" +:+ NL +:+ "<li>".
Definition tocSibling : string := "</li>" +:+ NL +:+ NL +:+ "<li>".
Definition tocClose : string := "</li>" +:+ NL +:+ "</ul>".

(** [for level < tocLevel { tocLevel--; buf.WriteString("</li>\n</ul>") }];
    the last loop of [writeTOC] is the same loop with [level] 0.
    [tocLevel] moves towards [level], so it cannot wrap around. *)
Fixpoint tocCloseLoop (fuel : nat) (level tocLevel : Z) (buf : bytes) : res (Z * bytes) :=
  if (level <? tocLevel)%Z then
    match fuel with
    | 0 => OutOfFuel
    | S fuel' => tocCloseLoop fuel' level (tocLevel - 1)%Z (buf ++ B tocClose)
    end
  else Ok (tocLevel, buf).

(** [for level > tocLevel { tocLevel++; buf.WriteString("\n<ul>\n<li>") }] *)
Fixpoint tocOpenLoop (fuel : nat) (level tocLevel : Z) (buf : bytes) : res (Z * bytes) :=
  if (tocLevel <? level)%Z then
    match fuel with
    | 0 => OutOfFuel
    | S fuel' => tocOpenLoop fuel' level (tocLevel + 1)%Z (buf ++ B tocOpen)
    end
  else Ok (tocLevel, buf).

(** The variables that the callback of [writeTOC] closes over, and the
    renderer. *)
Record tocState : Type := {
  inHeading : bool;
  tocLevel : Z;
  headingCount : Z;
  tocR : Renderer;
  buf : bytes
}.

Definition tocVisit (c : Cursor) (entering : bool) (s : tocState)
  : res (WalkStatus * NodeData * tocState) :=
  match Data (node c) with
  | HeadingData level _ false =>
      if entering then
        let data := HeadingData level ("toc_" +:+ Itoa (headingCount s)) false in
        '(lvl, b) ←
          (if (level =? tocLevel s)%Z then Ok (tocLevel s, buf s ++ B tocSibling)
           else if (level <? tocLevel s)%Z then
             '(lvl, b) ← tocCloseLoop (Z.to_nat (tocLevel s - level)) level
                            (tocLevel s) (buf s);
             Ok (lvl, b ++ B tocSibling)
           else tocOpenLoop (Z.to_nat (level - tocLevel s)) level (tocLevel s) (buf s));
        let b := b ++ B ("<a href=" +:+ DQ +:+ "#toc_" +:+ Itoa (headingCount s)
                         +:+ DQ +:+ ">") in
        Ok (GoToNext, data,
            {| inHeading := true; tocLevel := lvl;
               headingCount := wrap64 (headingCount s + 1);
               tocR := tocR s; buf := b |})
      else
        Ok (GoToNext, Data (node c),
            {| inHeading := false; tocLevel := tocLevel s;
               headingCount := headingCount s;
               tocR := tocR s; buf := buf s ++ B "</a>" |})
  | data =>
      if inHeading s then
        '(status, (r, b)) ← RenderNode c entering (tocR s, buf s);
        Ok (status, data,
            {| inHeading := inHeading s; tocLevel := tocLevel s;
               headingCount := headingCount s; tocR := r; buf := b |})
      else Ok (GoToNext, data, s)
  end.

(** [writeTOC] returns the document, whose headings it has renamed. *)
Definition writeTOC (doc : Node) : M Node := fun st =>
  let s0 := {| inHeading := false; tocLevel := 0; headingCount := 0;
               tocR := st.1; buf := [] |} in
  '(_, doc', s) ← Walk tocVisit [] None None doc s0;
  '(_, b) ← tocCloseLoop (Z.to_nat (tocLevel s)) 0 (tocLevel s) (buf s);
  let w := if 0 <? length b
           then st.2 ++ B ("<nav>" +:+ NL) ++ b ++ B (NL +:+ NL +:+ "</nav>" +:+ NL)
           else st.2 in
  Ok (doc', (set_lastOutputLen (Z.of_nat (length b)) (tocR s), w)).

(** Modelled from the spec: the driver of the main traversal (tree,
    dispatcher, per-kind renderer, output sink), which is outside this file:
    the walk with [RenderNode] as its callback. *)
Definition renderVisit (c : Cursor) (entering : bool) (st : state)
  : res (WalkStatus * NodeData * state) :=
  '(status, st') ← RenderNode c entering st;
  Ok (status, Data (node c), st').

Definition Render (root : Node) : M unit := fun st =>
  '(_, _, st') ← Walk renderVisit [] None None root st;
  Ok (tt, st').

End Renderers.

(** * Properties *)

(** ** The raw-tag pattern at work *)

Example stripTags_tt : stripTags (B "<tt>") = [].
Proof. vm_compute. reflexivity. Qed.
Example stripTags_close_tt : stripTags (B "</tt>") = [].
Proof. vm_compute. reflexivity. Qed.
Example stripTags_img : stripTags (B ("<img src=" +:+ DQ)) = B ("<img src=" +:+ DQ).
Proof. vm_compute. reflexivity. Qed.
Example stripTags_a : stripTags (B ("<a href=" +:+ DQ +:+ "x" +:+ DQ +:+ " id=y >rest")) = B "rest".
Proof. vm_compute. reflexivity. Qed.
Example stripTags_comment : stripTags (B "<!-- a-b -->x<b>") = B "x<b>".
Proof. vm_compute. reflexivity. Qed.
Example stripTags_nl : stripTags (B NL) = B NL.
Proof. vm_compute. reflexivity. Qed.
Example stripTags_pi : stripTags (B "<?a?>?>") = B "?>".
Proof. vm_compute. reflexivity. Qed.
Example stripTags_mid : stripTags (B "a<b>") = B "a<b>".
Proof. vm_compute. reflexivity. Qed.

(** ** The safe-link test *)

Lemma prefix_split (p l : bytes) :
  length p <= length l ∧ take (length p) l = p ↔ ∃ rest, l = p ++ rest.
Proof.
  split.
  - intros [_ H]. exists (drop (length p) l). rewrite <- H at 1. by rewrite take_drop.
  - intros [rest ->]. split; [rewrite length_app; lia|]. by rewrite take_app_length.
Qed.

Lemma alnumAt_app (p : bytes) rest :
  alnumAt (p ++ rest) (length p) = true ↔ ∃ c rest', rest = c :: rest' ∧ isAlnum c = true.
Proof.
  unfold alnumAt. rewrite lookup_app_r by lia. rewrite Nat.sub_diag.
  destruct rest as [|c rest']; simpl.
  - split; [done|]. by intros (? & ? & ? & ?).
  - split; [eauto|]. by intros (? & ? & [= <- <-] & ?).
Qed.

Lemma safePath_spec link path :
  safePath link path = true ↔
  link = path ∨ ∃ c rest, link = path ++ c :: rest ∧ isAlnum c = true.
Proof.
  unfold safePath. rewrite !andb_true_iff, orb_true_iff, bool_decide_eq_true.
  rewrite Nat.leb_le, Nat.eqb_eq. rewrite prefix_split. split.
  - intros [[rest ->] [Hlen|Hal]].
    + left. rewrite length_app in Hlen. destruct rest; simpl in *; [by rewrite app_nil_r|lia].
    + right. apply alnumAt_app in Hal as (c & rest' & -> & ?). eauto.
  - intros [->|(c & rest & -> & Hc)].
    + split; [exists []; by rewrite app_nil_r|by left].
    + split; [eauto|]. right. apply alnumAt_app. eauto.
Qed.

Lemma safeUri_spec link prefix :
  safeUri link prefix = true ↔
  ∃ p c rest, link = p ++ c :: rest ∧ bytesToLower p = prefix ∧ isAlnum c = true.
Proof.
  unfold safeUri. rewrite !andb_true_iff, bool_decide_eq_true, Nat.ltb_lt. split.
  - intros [[Hlen Hlow] Hal].
    assert (Hp : length (take (length prefix) link) = length prefix)
      by (rewrite length_take; lia).
    pose proof (alnumAt_app (take (length prefix) link) (drop (length prefix) link)) as Happ.
    rewrite take_drop, Hp in Happ. apply Happ in Hal as (c & rest & Hd & Hc).
    exists (take (length prefix) link), c, rest. split_and!; [|done..].
    by rewrite <- Hd, take_drop.
  - intros (p & c & rest & -> & <- & Hc).
    unfold bytesToLower. rewrite length_map, take_app_length.
    split_and!; [rewrite length_app; simpl; lia|done|].
    apply alnumAt_app. eauto.
Qed.
Theorem isSafeLink_allowlists :
  isSafeLink (B "/path") = true ∧
  isSafeLink (B "javascript:alert(1)") = false ∧
  isSafeLink (B "http://a") = true ∧
  isSafeLink (B "http://") = false ∧
  isSafeLink (B "http://a1") = true ∧
  ∀ link : bytes,
    isSafeLink link = true ↔
      (∃ path, path ∈ validPaths ∧
         (link = path ∨ ∃ c rest, link = path ++ c :: rest ∧ isAlnum c = true))
      ∨ (∃ prefix p c rest, prefix ∈ validUris ∧
           link = p ++ c :: rest ∧ bytesToLower p = prefix ∧ isAlnum c = true).
Proof.
  split_and!; try (vm_compute; reflexivity).
  intros link. unfold isSafeLink.
  rewrite orb_true_iff, !existsb_exists.
  setoid_rewrite safePath_spec. setoid_rewrite safeUri_spec.
  setoid_rewrite <- list_elem_of_In. split.
  - intros [(path & ? & ?)|(prefix & ? & p & c & rest & ?)]; [left|right]; eauto 10.
  - intros [(path & ? & ?)|(prefix & p & c & rest & ? & ?)]; [left|right]; eauto 10.
Qed.

Lemma isSafeLink_http_a : isSafeLink (B "http://a") ≠ false.
Proof. vm_compute. discriminate. Qed.

(** ** slugify *)

Definition dash : ascii := "-"%char.

Fixpoint collapse (inp : bytes) (sym : bool) : bytes :=
  match inp with
  | [] => []
  | ch :: rest =>
      if isAlnum ch then ch :: collapse rest false
      else if sym then collapse rest sym
      else dash :: collapse rest true
  end.

Lemma slugify_collapse_app inp sym out :
  slugify_collapse inp sym out = out ++ collapse inp sym.
Proof.
  revert sym out. induction inp as [|ch rest IH]; intros sym out; simpl.
  - by rewrite app_nil_r.
  - destruct (isAlnum ch); [|destruct sym]; rewrite IH; by rewrite <- ?app_assoc.
Qed.

Fixpoint nodd (l : bytes) : bool :=
  match l with
  | c1 :: t => match t with
               | c2 :: _ => negb (bool_decide (c1 = dash) && bool_decide (c2 = dash))
               | [] => true
               end && nodd t
  | [] => true
  end.
Definition okchars (l : bytes) : bool :=
  forallb (fun c => isAlnum c || bool_decide (c = dash)) l.

Lemma isAlnum_dash : isAlnum dash = false.
Proof. reflexivity. Qed.

Lemma collapse_shape inp sym :
  okchars (collapse inp sym) = true ∧ nodd (collapse inp sym) = true ∧
  (sym = true → head (collapse inp sym) ≠ Some dash).
Proof.
  revert sym. induction inp as [|ch rest IH]; intros sym; simpl; [done|].
  destruct (isAlnum ch) eqn:Hch.
  - destruct (IH false) as (Hok & Hnd & _). simpl. rewrite Hch, Hok, Hnd. simpl.
    split_and!; [done| |].
    + destruct (collapse rest false); [done|].
      rewrite andb_true_r. apply negb_true_iff, andb_false_iff. left.
      apply bool_decide_eq_false. intros ->. by rewrite isAlnum_dash in Hch.
    + intros _ [= ->]. by rewrite isAlnum_dash in Hch.
  - destruct sym; [apply IH|].
    destruct (IH true) as (Hok & Hnd & Hhd). simpl. rewrite Hok, Hnd.
    split_and!; [done| |done].
    destruct (collapse rest true) as [|c2 ?]; [done|]. rewrite andb_true_r.
    apply negb_true_iff, bool_decide_eq_false.
    intros ->. by apply Hhd.
Qed.

Lemma collapse_fixed s sym :
  okchars s = true → nodd s = true → (sym = true → head s ≠ Some dash) →
  collapse s sym = s.
Proof.
  revert sym. induction s as [|c r IH]; intros sym Hok Hnd Hhd; [done|].
  simpl in *. apply andb_true_iff in Hok as [Hc Hok], Hnd as [Hcd Hnd].
  destruct (isAlnum c) eqn:Hal.
  - f_equal. by apply IH.
  - simpl in Hc. apply bool_decide_eq_true in Hc as ->.
    destruct sym; [by destruct Hhd|].
    f_equal. apply IH; [done..|]. intros _.
    destruct r as [|c2 ?]; [done|]. simpl. intros [= ->]. done.
Qed.
Definition trim (out : bytes) : bytes :=
  slice out (slugify_first out 0 0) (slugify_last out (length out - 1) + 1).

Lemma slugify_unfold inp :
  inp ≠ [] → slugify inp = trim (collapse inp false).
Proof.
  intros Hne. unfold slugify, trim. rewrite slugify_collapse_app. simpl.
  destruct inp; [done|]. by rewrite bool_decide_eq_false_2.
Qed.

Lemma slugify_first_skip ds c t i a :
  Forall (eq dash) ds → c ≠ dash →
  slugify_first (ds ++ c :: t) i a = i + length ds.
Proof.
  intros Hds Hc. revert i a. induction Hds as [|d ds <- _ IH]; intros i a; simpl.
  - rewrite bool_decide_eq_true_2 by done. lia.
  - rewrite IH. lia.
Qed.

Lemma slugify_last_skip pre c ds n :
  Forall (eq dash) ds → c ≠ dash → n <= length ds →
  slugify_last (pre ++ c :: ds) (length pre + n) = length pre.
Proof.
  intros Hds Hc. induction n as [|n IH]; intros Hn.
  - rewrite Nat.add_0_r. destruct (length pre) eqn:Hl; [done|]. simpl.
    rewrite <- Hl, list_lookup_middle by done.
    by rewrite bool_decide_eq_true_2.
  - rewrite Nat.add_succ_r. simpl. rewrite <- Nat.add_succ_r.
    rewrite lookup_app_r by lia.
    replace (length pre + S n - length pre) with (S n) by lia. simpl.
    destruct (lookup_lt_is_Some_2 ds n) as [d Hd]; [lia|]. rewrite Hd.
    rewrite Forall_forall in Hds. rewrite <- (Hds d) by (eapply list_elem_of_lookup_2; eauto).
    simpl. apply IH. lia.
Qed.

(** Every list is a run of dashes, or dashes around a part that neither starts
    nor ends with a dash. *)
Lemma strip_dashes_left (o : bytes) :
  ∃ ds t, o = ds ++ t ∧ Forall (eq dash) ds ∧ head t ≠ Some dash.
Proof.
  induction o as [|c o (ds & t & -> & Hds & Ht)].
  - by exists [], [].
  - destruct (decide (c = dash)) as [->|Hc].
    + exists (dash :: ds), t. by split_and!; [|constructor|].
    + exists [], (c :: ds ++ t). split_and!; [done|constructor|]. by intros [= ->].
Qed.

Lemma strip_dashes_right (o : bytes) :
  ∃ t ds, o = t ++ ds ∧ Forall (eq dash) ds ∧ last t ≠ Some dash.
Proof.
  induction o as [|c o IH] using rev_ind.
  - by exists [], [].
  - destruct IH as (t & ds & -> & Hds & Ht). destruct (decide (c = dash)) as [->|Hc].
    + exists t, (ds ++ [dash]). rewrite app_assoc. split_and!; [done| |done].
      apply Forall_app; split; [done|by constructor].
    + exists ((t ++ ds) ++ [c]), []. rewrite app_nil_r. split_and!; [done|constructor|].
      rewrite last_snoc. by intros [= ->].
Qed.

Lemma dash_decomposition (o : bytes) :
  Forall (eq dash) o ∨
  ∃ ds1 c1 m c2 ds2, o = ds1 ++ m ++ ds2 ∧ Forall (eq dash) ds1 ∧ Forall (eq dash) ds2 ∧
    head m = Some c1 ∧ last m = Some c2 ∧ c1 ≠ dash ∧ c2 ≠ dash.
Proof.
  destruct (strip_dashes_left o) as (ds1 & t & -> & Hds1 & Ht).
  destruct (strip_dashes_right t) as (m & ds2 & -> & Hds2 & Hm).
  destruct m as [|c1 m'].
  - destruct ds2 as [|d ds2]; [left; by rewrite app_nil_r|].
    apply Forall_cons in Hds2 as [<- _]. by destruct Ht.
  - right. destruct (last (c1 :: m')) as [c2|] eqn:Hl.
    2:{ apply last_None in Hl. done. }
    exists ds1, c1, (c1 :: m'), c2, ds2. split_and!; try done.
    + intros ->. by apply Ht.
    + intros ->. by apply Hm.
Qed.

Lemma trim_middle ds1 c1 m c2 ds2 :
  Forall (eq dash) ds1 → Forall (eq dash) ds2 →
  head m = Some c1 → last m = Some c2 → c1 ≠ dash → c2 ≠ dash →
  slugify_first (ds1 ++ m ++ ds2) 0 0 = length ds1 ∧
  slugify_last (ds1 ++ m ++ ds2) (length (ds1 ++ m ++ ds2) - 1) + 1 = length ds1 + length m ∧
  trim (ds1 ++ m ++ ds2) = m.
Proof.
  intros Hds1 Hds2 Hh Hl Hc1 Hc2.
  assert (Ha : slugify_first (ds1 ++ m ++ ds2) 0 0 = length ds1).
  { destruct m as [|c m']; [done|]. injection Hh as ->. simpl.
    by rewrite slugify_first_skip. }
  assert (Hb : slugify_last (ds1 ++ m ++ ds2) (length (ds1 ++ m ++ ds2) - 1) + 1
               = length ds1 + length m).
  { destruct (last_Some m c2) as [[m' ->] _]; [done|].
    replace (ds1 ++ (m' ++ [c2]) ++ ds2) with ((ds1 ++ m') ++ c2 :: ds2)
      by (by rewrite <- !app_assoc).
    replace (length ((ds1 ++ m') ++ c2 :: ds2) - 1)
      with (length (ds1 ++ m') + length ds2)
      by (rewrite (length_app (ds1 ++ m')); simpl; lia).
    rewrite slugify_last_skip by (done || lia). rewrite !length_app. simpl. lia. }
  split_and!; [done..|].
  unfold trim, slice. rewrite Ha, Hb.
  rewrite drop_app_length. replace (length ds1 + length m - length ds1) with (length m) by lia.
  by rewrite take_app_length.
Qed.

Lemma nodd_all_dashes o :
  Forall (eq dash) o → nodd o = true → o = [] ∨ o = [dash].
Proof.
  intros Ho Hn. destruct Ho as [|c o <- Ho]; [by left|].
  destruct Ho as [|c2 o <- _]; [by right|].
  by simpl in Hn.
Qed.
Lemma nodd_app_r l1 l2 : nodd (l1 ++ l2) = true → nodd l2 = true.
Proof.
  induction l1 as [|c l1 IH]; [done|]. simpl. intros [_ H]%andb_true_iff. auto.
Qed.

Lemma nodd_app_l l1 l2 : nodd (l1 ++ l2) = true → nodd l1 = true.
Proof.
  induction l1 as [|c l1 IH]; [done|]. simpl. intros [H1 H2]%andb_true_iff.
  rewrite IH by done. rewrite andb_true_r.
  destruct l1 as [|c2 l1]; [done|]. done.
Qed.

Lemma okchars_app l1 l2 : okchars (l1 ++ l2) = okchars l1 && okchars l2.
Proof. apply forallb_app. Qed.

Lemma collapse_nonempty c x : collapse (c :: x) false ≠ [].
Proof. simpl. by destruct (isAlnum c). Qed.

(** What [slugify] returns: a single dash, or a slug that starts and ends
    with a letter or digit and has no two dashes in a row. *)
Lemma slugify_cases x :
  x ≠ [] →
  (collapse x false = [dash] ∧ slugify x = [dash]) ∨
  (∃ c1 c2, head (slugify x) = Some c1 ∧ last (slugify x) = Some c2 ∧
            c1 ≠ dash ∧ c2 ≠ dash ∧
            okchars (slugify x) = true ∧ nodd (slugify x) = true).
Proof.
  intros Hx. rewrite slugify_unfold by done.
  destruct (collapse_shape x false) as (Hok & Hnd & _).
  destruct (dash_decomposition (collapse x false))
    as [Hall|(ds1 & c1 & m & c2 & ds2 & Ho & Hds1 & Hds2 & Hh & Hl & Hc1 & Hc2)].
  - left. destruct (nodd_all_dashes _ Hall Hnd) as [He|He].
    + destruct x; [done|]. by apply collapse_nonempty in He.
    + by rewrite He.
  - right. exists c1, c2. rewrite Ho in *.
    destruct (trim_middle ds1 c1 m c2 ds2) as (_ & _ & ->); try done.
    rewrite !okchars_app in Hok. apply andb_true_iff in Hok as [_ [Hok _]%andb_true_iff].
    apply nodd_app_r, nodd_app_l in Hnd. done.
Qed.

Lemma slugify_fixed m c1 c2 :
  head m = Some c1 → last m = Some c2 → c1 ≠ dash → c2 ≠ dash →
  okchars m = true → nodd m = true → slugify m = m.
Proof.
  intros Hh Hl Hc1 Hc2 Hok Hnd.
  rewrite slugify_unfold by (by intros ->).
  rewrite collapse_fixed by done.
  destruct (trim_middle [] c1 m c2 []) as (_ & _ & Ht); try done.
  by rewrite app_nil_r in Ht.
Qed.

(** [slugify] is idempotent, on every byte string. *)
Theorem slugify_idempotent (x : bytes) : slugify (slugify x) = slugify x.
Proof.
  destruct (decide (x = [])) as [->|Hx]; [done|].
  destruct (slugify_cases x Hx) as [[_ ->]|(c1 & c2 & ? & ? & ? & ? & ? & ?)]; [done|].
  by eapply slugify_fixed.
Qed.

Lemma collapse_symbols x :
  Forall (fun c => isAlnum c = false) x → collapse x true = [].
Proof. induction 1 as [|c x Hc _ IH]; [done|]. simpl. by rewrite Hc. Qed.

Lemma slugify_symbols_only x :
  x ≠ [] → Forall (fun c => isAlnum c = false) x → slugify x = [dash].
Proof.
  intros Hx Hall. rewrite slugify_unfold by done.
  destruct Hall as [|c x Hc Hall]; [done|]. simpl.
  by rewrite Hc, collapse_symbols.
Qed.

Lemma collapse_keeps_alnum x sym :
  Exists (fun c => isAlnum c = true) x →
  Exists (fun c => isAlnum c = true) (collapse x sym).
Proof.
  intros Hex. revert sym. induction Hex as [c x Hc|c x _ IH]; intros sym; simpl.
  - rewrite Hc. by left.
  - destruct (isAlnum c) eqn:Hc; [by left|]. destruct sym; [apply IH|right; apply IH].
Qed.

(** When the input holds a letter or a digit, the slug neither starts nor
    ends with a dash. *)
Theorem slugify_trimmed x :
  Exists (fun c => isAlnum c = true) x →
  head (slugify x) ≠ Some dash ∧ last (slugify x) ≠ Some dash.
Proof.
  intros Hex. assert (Hx : x ≠ []) by (intros ->; by apply Exists_nil in Hex).
  destruct (slugify_cases x Hx) as [[Ho _]|(c1 & c2 & -> & -> & ? & ? & _)].
  - apply (collapse_keeps_alnum _ false) in Hex. rewrite Ho in Hex.
    apply Exists_cons in Hex as [Hd|[]%Exists_nil]. by rewrite isAlnum_dash in Hd.
  - split; by intros [= ->].
Qed.

(** The slice expression [out[a : b+1]] of [slugify] is within bounds, so
    [slugify] does not panic. *)
Theorem slugify_slice_in_bounds x :
  x ≠ [] →
  let out := slugify_collapse x false [] in
  slugify_first out 0 0 <= slugify_last out (length out - 1) + 1 <= length out.
Proof.
  intros Hx. simpl. rewrite slugify_collapse_app. simpl.
  destruct (collapse_shape x false) as (_ & Hnd & _).
  destruct (dash_decomposition (collapse x false))
    as [Hall|(ds1 & c1 & m & c2 & ds2 & Ho & Hds1 & Hds2 & Hh & Hl & Hc1 & Hc2)].
  - destruct (nodd_all_dashes _ Hall Hnd) as [He|He].
    + destruct x; [done|]. by apply collapse_nonempty in He.
    + rewrite He. simpl. lia.
  - rewrite Ho. destruct (trim_middle ds1 c1 m c2 ds2) as (-> & -> & _); try done.
    rewrite !length_app. lia.
Qed.

(** C5.  [slugify] at an input without a letter or digit: the output is the
    single byte [-], which starts and ends with a dash and is not empty. *)
Theorem slugify_bang_is_dash :
  slugify (B "!") = B "-" ∧
  head (slugify (B "!")) = Some "-"%char ∧ last (slugify (B "!")) = Some "-"%char ∧
  slugify (B "!") ≠ [].
Proof. vm_compute. by split_and!. Qed.
(** ** Heading identifiers *)

Lemma string_length_app (s1 s2 : string) :
  String.length (s1 +:+ s2) = String.length s1 + String.length s2.
Proof. induction s1 as [|c s1 IH]; simpl; [done|]. by rewrite IH. Qed.

Lemma maxKeyLen_bound (ids : gmap string Z) k v :
  ids !! k = Some v → String.length k <= maxKeyLen ids.
Proof.
  intros Hk%elem_of_map_to_list. unfold maxKeyLen.
  induction (map_to_list ids) as [|kv l IH]; [by apply elem_of_nil in Hk|].
  simpl. apply elem_of_cons in Hk as [<-|Hk]; [simpl; lia|].
  specialize (IH Hk). lia.
Qed.

Section UniqueLoop.

(** Every registered identifier is at most [L] bytes long. *)
Variable L : nat.
Definition bounded (ids : gmap string Z) : Prop :=
  ∀ k, is_Some (ids !! k) → String.length k <= L.

Lemma bounded_insert ids id v :
  bounded ids → is_Some (ids !! id) → bounded (<[id := v]> ids).
Proof.
  intros Hb Hid k. destruct (decide (id = k)) as [<-|Hne].
  - intros _. by apply Hb.
  - rewrite lookup_insert_ne by done. apply Hb.
Qed.

(** The loop ends, at an identifier that is not registered, and it registers
    none. *)
Lemma uniqueLoop_fresh fuel ids id :
  bounded ids → L + 2 - String.length id + 1 <= fuel →
  ∃ id' ids', uniqueLoop fuel ids id = Ok (id', ids') ∧ ids' !! id' = None ∧
              (∀ k, is_Some (ids' !! k) ↔ is_Some (ids !! k)).
Proof.
  revert id. induction fuel as [|fuel IH]; intros id Hb Hfuel; [lia|].
  simpl. destruct (ids !! id) as [count|] eqn:Hid; [|by eauto].
  assert (Hlen : String.length id <= L) by (apply Hb; by rewrite Hid).
  destruct (ids !! (id +:+ "-" +:+ Itoa (wrap64 (count + 1)))) eqn:Htmp.
  - apply IH; [done|]. rewrite string_length_app. simpl. lia.
  - destruct fuel as [|fuel]; [lia|]. simpl.
    assert (Hne : id ≠ id +:+ "-" +:+ Itoa (wrap64 (count + 1))).
    { intros Heq. rewrite <- Heq in Htmp. congruence. }
    rewrite lookup_insert_ne, Htmp by done.
    eexists _, _. split_and!; [done|by rewrite lookup_insert_ne|].
    intros k. destruct (decide (id = k)) as [<-|Hk].
    + rewrite lookup_insert_eq, Hid. split; eauto.
    + by rewrite lookup_insert_ne.
Qed.

End UniqueLoop.

Lemma uniqueLoop_more_fuel fuel fuel' ids id x :
  uniqueLoop fuel ids id = Ok x → fuel <= fuel' → uniqueLoop fuel' ids id = Ok x.
Proof.
  revert fuel' ids id. induction fuel as [|fuel IH]; intros fuel' ids id; [done|].
  destruct fuel' as [|fuel']; [lia|]. simpl. intros Hrun Hle.
  destruct (ids !! id) as [count|]; [|done].
  destruct (ids !! _); apply IH; (done || lia).
Qed.

Lemma bounded_maxKeyLen ids : bounded (maxKeyLen ids) ids.
Proof. intros k [v Hk]. by eapply maxKeyLen_bound. Qed.

(** The loop of [ensureUniqueHeadingID] never runs out of the fuel it is
    given. *)
Lemma ensureUniqueHeadingID_returns id r w :
  ∃ id' ids',
    uniqueLoop (maxKeyLen (headingIDs r) + 3) (headingIDs r) id = Ok (id', ids') ∧
    ensureUniqueHeadingID id (r, w)
      = Ok (id', (set_headingIDs (<[id' := 0%Z]> ids') r, w)) ∧
    ids' !! id' = None ∧ (∀ k, is_Some (ids' !! k) ↔ is_Some (headingIDs r !! k)).
Proof.
  destruct (uniqueLoop_fresh (maxKeyLen (headingIDs r))
              (maxKeyLen (headingIDs r) + 3) (headingIDs r) id)
    as (id' & ids' & Hrun & Hfresh & Hkeys); [apply bounded_maxKeyLen|lia|].
  exists id', ids'. split_and!; [done| |done..].
  unfold ensureUniqueHeadingID. simpl. rewrite Hrun. simpl. by rewrite Hfresh.
Qed.
(** What a method returned, and what it left behind. *)
Definition value {A} (x : res (A * state)) : option A :=
  match x with Ok (a, _) => Some a | _ => None end.
Definition written {A} (x : res (A * state)) : option bytes :=
  match x with Ok (_, (_, w)) => Some w | _ => None end.
Definition final {A} (x : res (A * state)) : option Renderer :=
  match x with Ok (_, (r, _)) => Some r | _ => None end.

(** A renderer for the examples: escaping and smartypants left out. *)
Definition noEscape : bytes -> bytes := fun d => d.
Definition noSmartypants : Z -> bytes -> bytes := fun _ d => d.
Definition optsWith (flags : Z) (absolutePrefix : string) : RendererOptions :=
  {| AbsolutePrefix := absolutePrefix; FootnoteAnchorPrefix := "";
     FootnoteReturnLinkContents := ""; HeadingIDPrefix := ""; HeadingIDSuffix := "";
     Title := ""; CSS := ""; Icon := ""; Flags := flags; RenderNodeHook := None |}.
Definition rendererWith (flags : Z) : Renderer :=
  NewRenderer noSmartypants (optsWith flags "").

(** The registry after the headings [a] and [a-1]. *)
Definition idsA : gmap string Z := <["a-1" := 0%Z]> (<["a" := 0%Z]> ∅).

Example ensureUniqueHeadingID_a_a1 :
  match final (ensureUniqueHeadingID "a" (rendererWith 0, [])) with
  | Some r1 => headingIDs <$> final (ensureUniqueHeadingID "a-1" (r1, []))
  | None => None
  end = Some idsA.
Proof. vm_compute. reflexivity. Qed.

(** C2 (as amended).  When the candidate and its probe are both registered,
    the call goes on as the call on the candidate followed by [-1]: the loop
    runs again.  It always returns, with an identifier that was not registered
    before and is registered after. *)
Theorem ensureUniqueHeadingID_retries (id : string) (count : Z) (r : Renderer) (w : bytes) :
  headingIDs r !! id = Some count →
  is_Some (headingIDs r !! (id +:+ "-" +:+ Itoa (wrap64 (count + 1)))) →
  ensureUniqueHeadingID id (r, w) = ensureUniqueHeadingID (id +:+ "-1") (r, w) ∧
  ∃ id' r', ensureUniqueHeadingID id (r, w) = Ok (id', (r', w)) ∧
            headingIDs r !! id' = None ∧ headingIDs r' !! id' = Some 0%Z.
Proof.
  intros Hid [v Hprobe]. split.
  - destruct (ensureUniqueHeadingID_returns (id +:+ "-1") r w)
      as (id' & ids' & Hrun & -> & Hfresh & Hkeys).
    destruct (uniqueLoop_fresh (maxKeyLen (headingIDs r))
                (maxKeyLen (headingIDs r) + 2) (headingIDs r) (id +:+ "-1"))
      as (id2 & ids2 & Hrun2 & _); [apply bounded_maxKeyLen| |].
    { rewrite string_length_app. simpl. lia. }
    pose proof (uniqueLoop_more_fuel _ (maxKeyLen (headingIDs r) + 3) _ _ _ Hrun2) as Hrun3.
    rewrite Hrun in Hrun3. specialize (Hrun3 ltac:(lia)). injection Hrun3 as <- <-.
    unfold ensureUniqueHeadingID. simpl.
    replace (maxKeyLen (headingIDs r) + 3) with (S (maxKeyLen (headingIDs r) + 2)) by lia.
    simpl. rewrite Hid, Hprobe, Hrun2. simpl. by rewrite Hfresh.
  - destruct (ensureUniqueHeadingID_returns id r w)
      as (id' & ids' & _ & -> & Hfresh & Hkeys).
    eexists _, _. split_and!; [done| |simpl; by rewrite lookup_insert_eq].
    destruct (headingIDs r !! id') eqn:Hl; [|done].
    destruct (proj2 (Hkeys id')) as [? Hs]; [by rewrite Hl|]. congruence.
Qed.

Lemma ensureUniqueHeadingID_retries_witness :
  let r := set_headingIDs idsA (rendererWith 0) in
  headingIDs r !! "a" = Some 0%Z ∧
  is_Some (headingIDs r !! ("a" +:+ "-" +:+ Itoa (wrap64 (0 + 1)))) ∧
  (ensureUniqueHeadingID "a" (r, []) = ensureUniqueHeadingID ("a" +:+ "-1") (r, []) ∧
   ∃ id' r', ensureUniqueHeadingID "a" (r, []) = Ok (id', (r', [])) ∧
             headingIDs r !! id' = None ∧ headingIDs r' !! id' = Some 0%Z).
Proof.
  intros r.
  assert (H1 : headingIDs r !! "a" = Some 0%Z) by (vm_compute; reflexivity).
  assert (H2 : is_Some (headingIDs r !! ("a" +:+ "-" +:+ Itoa (wrap64 (0 + 1)))))
    by (exists 0%Z; vm_compute; reflexivity).
  split_and!; [exact H1|exact H2|..];
    apply (ensureUniqueHeadingID_retries "a" 0 r [] H1 H2).
Defined.

(** C2, as stated, fails: with [a] and its probe [a-1] registered, the call on
    [a] does not return [a-1]. *)
Lemma ensureUniqueHeadingID_loops_on :
  let r := set_headingIDs idsA (rendererWith 0) in
  headingIDs r !! "a" = Some 0%Z ∧
  headingIDs r !! ("a" +:+ "-" +:+ Itoa (wrap64 (0 + 1))) = Some 0%Z ∧
  value (ensureUniqueHeadingID "a" (r, [])) = Some "a-1-1" ∧
  value (ensureUniqueHeadingID "a" (r, [])) ≠ Some ("a" +:+ "-1").
Proof. vm_compute. by split_and!. Qed.
(** ** The output sink *)

Ltac munfold :=
  unfold mbind, mret, M_bind, M_ret, res_bind, res_ret, lift, getR, modR,
    write, writeString, when in *.

Lemma outs_eq (s : string) (r : Renderer) (w : bytes) :
  outs s (r, w) =
    Ok (tt, (set_lastOutputLen (len s) r,
             w ++ B (if (0 <? disableTags r)%Z then S_ (stripTags (B s)) else s))).
Proof. reflexivity. Qed.

Lemma out_eq (d : bytes) (r : Renderer) (w : bytes) :
  out d (r, w) =
    Ok (tt, (set_lastOutputLen (Z.of_nat (length d)) r,
             w ++ (if (0 <? disableTags r)%Z then stripTags d else d))).
Proof. reflexivity. Qed.

Lemma cr_eq (r : Renderer) (w : bytes) :
  cr (r, w) =
    if (0 <? lastOutputLen r)%Z then Ok (tt, (set_lastOutputLen 1 r, w ++ B NL))
    else Ok (tt, (r, w)).
Proof.
  unfold cr. munfold. simpl. destruct (0 <? lastOutputLen r)%Z; [|done].
  rewrite outs_eq. destruct (0 <? disableTags r)%Z; reflexivity.
Qed.

Lemma outTag_eq name attrs r w :
  outTag name attrs (r, w) =
    Ok (tt, (set_lastOutputLen 1 r,
             w ++ B (name +:+ (if 0 <? length attrs then " " +:+ join attrs " " else "")
                     +:+ ">"))).
Proof. reflexivity. Qed.

(** ** Links that are not linked *)

(** C1 (as amended).  A link whose destination fails the policy hands [<tt>]
    (entering) or [</tt>] (exiting) to the output sink and nothing else: at
    suppression depth 0 the tag is written, at a positive depth the sink
    strips it and nothing is written.  No [href] is written in either case. *)
Theorem link_skipped_writes_tt EscapeHTML escLink
    (dest title : bytes) (noteID : Z) (entering : bool) (r : Renderer) (w : bytes) :
  needSkipLink (Flags (opts r)) dest = true →
  link EscapeHTML escLink dest title noteID entering (r, w) =
    Ok (tt, (set_lastOutputLen (if entering then 4 else 5) r,
             w ++ (if (0 <? disableTags r)%Z then []
                   else B (if entering then "<tt>" else "</tt>")))).
Proof.
  intros Hskip. unfold link. munfold. simpl. rewrite Hskip.
  unfold outOneOf. destruct entering; rewrite outs_eq;
    destruct (0 <? disableTags r)%Z; reflexivity.
Qed.

Lemma link_skipped_writes_tt_witness :
  let r := rendererWith Safelink in
  needSkipLink (Flags (opts r)) (B "javascript:x") = true ∧
  link noEscape noEscape (B "javascript:x") (B "a title") 0 true (r, []) =
    Ok (tt, (set_lastOutputLen 4 r, B "<tt>")).
Proof.
  intros r.
  assert (H : needSkipLink (Flags (opts r)) (B "javascript:x") = true)
    by (vm_compute; reflexivity).
  split; [exact H|].
  exact (link_skipped_writes_tt noEscape noEscape (B "javascript:x") (B "a title")
           0 true r [] H).
Defined.

(** C1, as stated, fails inside the alternative text of an image, where the
    suppression depth is positive: the unsafe link writes no [<tt>]. *)
Lemma link_skipped_in_alt_text_writes_nothing :
  let r := set_disableTags 1 (rendererWith Safelink) in
  needSkipLink (Flags (opts r)) (B "javascript:x") = true ∧
  written (link noEscape noEscape (B "javascript:x") [] 0 true (r, [])) = Some [] ∧
  written (link noEscape noEscape (B "javascript:x") [] 0 true (r, [])) ≠ Some (B "<tt>").
Proof. vm_compute. by split_and!. Qed.
(** ** The attributes of an anchor *)

Definition hrefAttr (escLink : bytes -> bytes) (dest : bytes) : string :=
  "href=" +:+ DQ +:+ S_ (escLink dest) +:+ DQ.
Definition targetAttrs (flags : Z) : list string :=
  if has flags HrefTargetBlank then ["target=" +:+ quoted "_blank"] else [].
Definition relAttrs (flags : Z) : list string :=
  match has flags NofollowLinks, has flags NoreferrerLinks with
  | true, true => ["rel=" +:+ quoted "nofollow noreferrer"]
  | true, false => ["rel=" +:+ quoted "nofollow"]
  | false, true => ["rel=" +:+ quoted "noreferrer"]
  | false, false => []
  end.
Definition titleAttrs (EscapeHTML : bytes -> bytes) (title : bytes) : list string :=
  if 0 <? length title then ["title=" +:+ DQ +:+ S_ (EscapeHTML title) +:+ DQ] else [].

Lemma appendLinkAttrs_eq attrs flags link rel :
  isRelativeLink link = Ok rel →
  appendLinkAttrs attrs flags link =
    Ok (attrs ++ if rel then [] else targetAttrs flags ++ relAttrs flags).
Proof.
  intros Hrel. unfold appendLinkAttrs, targetAttrs, relAttrs. rewrite Hrel. simpl.
  destruct rel; [by rewrite app_nil_r|].
  destruct (has flags NofollowLinks), (has flags NoreferrerLinks),
    (has flags HrefTargetBlank); simpl; by rewrite <- ?app_assoc, ?app_nil_r.
Qed.

(** C6 (as amended).  The opening tag of an anchor holds [href], then, when
    the destination as rewritten is not relative, [target] and after it
    [rel], then [title]. *)
Theorem link_attribute_order EscapeHTML escLink
    (dest title dest' : bytes) (rel : bool) (r : Renderer) (w : bytes) :
  needSkipLink (Flags (opts r)) dest = false →
  addAbsPrefix dest (r, w) = Ok (dest', (r, w)) →
  isRelativeLink dest' = Ok rel →
  link EscapeHTML escLink dest title 0 true (r, w) =
    Ok (tt, (set_lastOutputLen 1 r,
             w ++ B ("<a " +:+
                     join ([hrefAttr escLink dest']
                           ++ (if rel then []
                               else targetAttrs (Flags (opts r)) ++ relAttrs (Flags (opts r)))
                           ++ titleAttrs EscapeHTML title) " "
                     +:+ ">"))).
Proof.
  intros Hskip Habs Hrel. unfold link. munfold. simpl. rewrite Hskip.
  unfold linkEnter. munfold. rewrite Habs. simpl.
  rewrite (appendLinkAttrs_eq _ _ _ rel Hrel). simpl.
  unfold titleAttrs, hrefAttr.
  set (X := if rel then [] else _).
  destruct (0 <? length title); rewrite outTag_eq; [reflexivity|].
  rewrite app_nil_r. reflexivity.
Qed.

Lemma link_attribute_order_witness :
  let r := rendererWith (Z.lor NofollowLinks HrefTargetBlank) in
  needSkipLink (Flags (opts r)) (B "http://a.b/") = false ∧
  addAbsPrefix (B "http://a.b/") (r, []) = Ok (B "http://a.b/", (r, [])) ∧
  isRelativeLink (B "http://a.b/") = Ok false ∧
  link noEscape noEscape (B "http://a.b/") (B "t") 0 true (r, []) =
    Ok (tt, (set_lastOutputLen 1 r,
             B ("<a href=" +:+ quoted "http://a.b/" +:+ " target=" +:+ quoted "_blank"
                +:+ " rel=" +:+ quoted "nofollow" +:+ " title=" +:+ quoted "t" +:+ ">"))).
Proof.
  intros r.
  assert (H0 : needSkipLink (Flags (opts r)) (B "http://a.b/") = false) by reflexivity.
  assert (H1 : addAbsPrefix (B "http://a.b/") (r, []) = Ok (B "http://a.b/", (r, [])))
    by reflexivity.
  assert (H2 : isRelativeLink (B "http://a.b/") = Ok false) by reflexivity.
  split_and!; [exact H0|exact H1|exact H2|].
  exact (link_attribute_order noEscape noEscape (B "http://a.b/") (B "t")
           (B "http://a.b/") false r [] H0 H1 H2).
Defined.

(** C6, as stated, fails: with both flags set, [target] comes before [rel]. *)
Lemma appendLinkAttrs_target_before_rel :
  let flags := Z.lor NofollowLinks HrefTargetBlank in
  let href := hrefAttr noEscape (B "http://a.b/") in
  appendLinkAttrs [href] flags (B "http://a.b/")
    = Ok [href; "target=" +:+ quoted "_blank"; "rel=" +:+ quoted "nofollow"] ∧
  appendLinkAttrs [href] flags (B "http://a.b/")
    ≠ Ok [href; "rel=" +:+ quoted "nofollow"; "target=" +:+ quoted "_blank"].
Proof. vm_compute. by split_and!. Qed.
(** ** Empty destinations *)

Lemma addAbsPrefix_no_prefix link r w :
  AbsolutePrefix (opts r) = "" → addAbsPrefix link (r, w) = Ok (link, (r, w)).
Proof. intros H. unfold addAbsPrefix. munfold. simpl. by rewrite H. Qed.

Lemma addAbsPrefix_state link st dest st' :
  addAbsPrefix link st = Ok (dest, st') → st' = st.
Proof.
  unfold addAbsPrefix. munfold. destruct st as [r w]. simpl.
  case_bool_decide; [|by intros [= _ <-]].
  destruct (isRelativeLink link) as [rel| |]; simpl; [|done..].
  repeat (case_match; simpl); by intros [= _ <-].
Qed.

(** C9 (as amended).  [isRelativeLink] panics on the empty destination, and so
    does the rendering of a link with an empty destination that passes the
    policy: in [addAbsPrefix] when an absolute prefix is configured (whatever
    the note id), and otherwise, for a link that is not a footnote, in
    [appendLinkAttrs]. *)
Theorem link_empty_destination_panics EscapeHTML escLink
    (title : bytes) (noteID : Z) (r : Renderer) (w : bytes) :
  needSkipLink (Flags (opts r)) [] = false →
  isRelativeLink [] = Panic IndexOutOfRange ∧
  (AbsolutePrefix (opts r) ≠ "" →
     addAbsPrefix [] (r, w) = Panic IndexOutOfRange ∧
     link EscapeHTML escLink [] title noteID true (r, w) = Panic IndexOutOfRange) ∧
  (AbsolutePrefix (opts r) = "" →
     addAbsPrefix [] (r, w) = Ok ([], (r, w)) ∧
     (∀ attrs, appendLinkAttrs attrs (Flags (opts r)) [] = Panic IndexOutOfRange) ∧
     link EscapeHTML escLink [] title 0 true (r, w) = Panic IndexOutOfRange).
Proof.
  intros Hskip. split_and!; [done|..].
  - intros Hp.
    assert (Ha : addAbsPrefix [] (r, w) = Panic IndexOutOfRange).
    { unfold addAbsPrefix. munfold. simpl. by rewrite bool_decide_eq_true_2. }
    split; [done|]. unfold link. munfold. simpl. rewrite Hskip.
    unfold linkEnter. munfold. by rewrite Ha.
  - intros Hp. split_and!; [by apply addAbsPrefix_no_prefix|done|].
    unfold link. munfold. simpl. rewrite Hskip.
    unfold linkEnter. munfold. by rewrite addAbsPrefix_no_prefix.
Qed.

Lemma link_empty_destination_panics_witness :
  let r := rendererWith 0 in
  needSkipLink (Flags (opts r)) [] = false ∧
  link noEscape noEscape [] [] 0 true (r, []) = Panic IndexOutOfRange.
Proof.
  intros r.
  assert (H : needSkipLink (Flags (opts r)) [] = false) by reflexivity.
  split; [exact H|].
  exact (proj2 (proj2 (proj2 (proj2
           (link_empty_destination_panics noEscape noEscape [] 0 r [] H)) eq_refl))).
Defined.

(** C9, as stated, fails when an absolute prefix is configured: the panic
    comes in [addAbsPrefix], and [appendLinkAttrs] is not reached. *)
Lemma link_empty_destination_panics_in_addAbsPrefix :
  let r := NewRenderer noSmartypants (optsWith 0 "http://a.b") in
  needSkipLink (Flags (opts r)) [] = false ∧
  addAbsPrefix [] (r, []) = Panic IndexOutOfRange ∧
  ¬ (∃ dest st, addAbsPrefix [] (r, []) = Ok (dest, st)).
Proof. split_and!; [reflexivity..|]. by intros (? & ? & ?). Qed.
(** ** The walk *)

Lemma Node_induction (P : Node → Prop) :
  (∀ d lit cs, Forall P cs → P (MkNode d lit cs)) → ∀ n, P n.
Proof.
  intros Hnode. fix IH 1. intros [d lit cs]. apply Hnode.
  induction cs as [|c cs IHcs]; constructor; [apply IH|apply IHcs].
Qed.

Section WalkFacts.
Context {St : Type} (visit : Cursor → bool → St → res (WalkStatus * NodeData * St)).

Lemma Walk_unfold anc prev next d lit cs s :
  Walk visit anc prev next (MkNode d lit cs) s =
    '(status, d1, s1) ← visit (Build_Cursor (MkNode d lit cs) anc prev next) true s;
    if negb (isContainer d) then
      Ok (bool_decide (status = Terminate), MkNode d1 lit cs, s1)
    else
      match status with
      | Terminate => Ok (true, MkNode d1 lit cs, s1)
      | _ =>
          '(stop, cs', s2) ←
            match status with
            | SkipChildren => Ok (false, cs, s1)
            | _ => WalkChildren visit (d1 :: anc) [] cs s1
            end;
          if stop : bool then Ok (true, MkNode d1 lit cs', s2)
          else
            '(status', d2, s3) ←
              visit (Build_Cursor (MkNode d1 lit cs') anc prev next) false s2;
            Ok (bool_decide (status' = Terminate), MkNode d2 lit cs', s3)
      end.
Proof. reflexivity. Qed.

End WalkFacts.
(** ** What the renderers leave alone *)

(** A method keeps the options and the suppression depth of the renderer. *)
Definition keeps {A} (m : M A) : Prop :=
  ∀ r w a r' w', m (r, w) = Ok (a, (r', w')) →
    opts r' = opts r ∧ disableTags r' = disableTags r.

Lemma keeps_ret {A} (a : A) : keeps (mret a).
Proof. intros r w a' r' w'. munfold. intros ?; by simplify_eq/=. Qed.

Lemma keeps_bind {A C} (m : M A) (k : A → M C) :
  keeps m → (∀ a, keeps (k a)) → keeps (m ≫= k).
Proof.
  intros Hm Hk r w c r' w'. munfold.
  destruct (m (r, w)) as [[a [r1 w1]]| |] eqn:Hrun; [|done..].
  intros Hrun'. destruct (Hm _ _ _ _ _ Hrun) as [Ho Hd].
  destruct (Hk a _ _ _ _ _ Hrun') as [Ho' Hd']. split; congruence.
Qed.

Lemma keeps_getR : keeps getR.
Proof. intros r w a r' w'. munfold. intros ?; by simplify_eq/=. Qed.

Lemma keeps_lift {A} (x : res A) : keeps (lift x).
Proof. intros r w a r' w'. munfold. destruct x; simpl; intros ?; by simplify_eq/=. Qed.

Lemma keeps_write d : keeps (write d).
Proof. intros r w a r' w'. munfold. intros ?; by simplify_eq/=. Qed.

Lemma keeps_writeString s : keeps (writeString s).
Proof. apply keeps_write. Qed.

Lemma keeps_outs s : keeps (outs s).
Proof. intros r w a r' w'. rewrite outs_eq. intros ?; by simplify_eq/=. Qed.

Lemma keeps_out d : keeps (out d).
Proof. intros r w a r' w'. rewrite out_eq. intros ?; by simplify_eq/=. Qed.

Lemma keeps_cr : keeps cr.
Proof.
  intros r w a r' w'. rewrite cr_eq.
  destruct (0 <? lastOutputLen r)%Z; intros ?; by simplify_eq/=.
Qed.

Lemma keeps_outTag name attrs : keeps (outTag name attrs).
Proof. intros r w a r' w'. rewrite outTag_eq. intros ?; by simplify_eq/=. Qed.

Lemma keeps_when b (m : M unit) : keeps m → keeps (when b m).
Proof. intros Hm. destruct b; [done|apply keeps_ret]. Qed.

Lemma keeps_outOneOf b s1 s2 : keeps (outOneOf b s1 s2).
Proof. destruct b; apply keeps_outs. Qed.

Lemma keeps_ensureUniqueHeadingID id : keeps (ensureUniqueHeadingID id).
Proof.
  intros r w a r' w'.
  destruct (ensureUniqueHeadingID_returns id r w) as (id' & ids' & _ & -> & _).
  intros ?; by simplify_eq/=.
Qed.

Lemma keeps_addAbsPrefix link : keeps (addAbsPrefix link).
Proof. intros r w a r' w' Hrun. apply addAbsPrefix_state in Hrun. by simplify_eq. Qed.

Create HintDb keeps.
#[export] Hint Resolve keeps_ret keeps_getR keeps_lift keeps_write keeps_writeString
  keeps_outs keeps_out keeps_cr keeps_outTag keeps_outOneOf
  keeps_ensureUniqueHeadingID keeps_addAbsPrefix : keeps.

Ltac keeps_step :=
  lazymatch goal with
  | |- keeps (mbind _ _) => apply keeps_bind; [|intros ?]
  | |- keeps (when _ _) => apply keeps_when
  | |- keeps (if ?b then _ else _) => destruct b
  | |- keeps (match ?x with _ => _ end) => destruct x
  | |- keeps (let _ := _ in _) => cbv zeta
  | |- _ => solve [auto with keeps]
  end.
Ltac keeps_tac := repeat keeps_step.

Section Keeps.
Variables EscapeHTML escLink : bytes → bytes.

Lemma keeps_outOneOfCr b s1 s2 : keeps (outOneOfCr b s1 s2).
Proof. unfold outOneOfCr. keeps_tac. Qed.

Lemma keeps_outHRTag : keeps outHRTag.
Proof. unfold outHRTag. keeps_tac. Qed.

Lemma keeps_text c : keeps (text EscapeHTML escLink c).
Proof. unfold text. keeps_tac. Qed.

Lemma keeps_hardBreak : keeps hardBreak.
Proof. unfold hardBreak. keeps_tac. Qed.

Lemma keeps_span c : keeps (span c).
Proof. unfold span. keeps_tac. Qed.

Lemma keeps_link dest title noteID entering :
  keeps (link EscapeHTML escLink dest title noteID entering).
Proof. unfold link, linkEnter, linkExit. keeps_tac. Qed.

Lemma keeps_paragraph c entering : keeps (paragraph c entering).
Proof. unfold paragraph, paragraphEnter, paragraphExit. keeps_tac. Qed.

Lemma keeps_code c : keeps (code EscapeHTML c).
Proof. unfold code. keeps_tac. Qed.

Lemma keeps_htmlBlock c : keeps (htmlBlock c).
Proof. unfold htmlBlock. keeps_tac. Qed.

Lemma keeps_heading c level id titleblock entering :
  keeps (heading c level id titleblock entering).
Proof. unfold heading, headingEnter, headingExit. keeps_tac. Qed.

Lemma keeps_horizontalRule : keeps horizontalRule.
Proof. unfold horizontalRule. pose proof keeps_outHRTag. keeps_tac. Qed.

Lemma keeps_list c flags footnotes entering : keeps (list_ c flags footnotes entering).
Proof. unfold list_, listEnter, listExit. pose proof keeps_outHRTag. keeps_tac. Qed.

Lemma keeps_listItem c flags ref entering : keeps (listItem c flags ref entering).
Proof. unfold listItem, listItemEnter, listItemExit. keeps_tac. Qed.

Lemma keeps_codeBlock c info : keeps (codeBlock EscapeHTML c info).
Proof. unfold codeBlock. keeps_tac. Qed.

Lemma keeps_tableCell c header align entering : keeps (tableCell c header align entering).
Proof. unfold tableCell. keeps_tac. Qed.

Lemma keeps_tableBody c entering : keeps (tableBody c entering).
Proof. unfold tableBody. keeps_tac. Qed.

End Keeps.
(** ** Images and the suppression depth *)

Lemma wrap64_id x : inInt x → wrap64 x = x.
Proof. unfold inInt, wrap64. intros H. rewrite Z.mod_small; lia. Qed.

Lemma wrap64_inInt x : inInt (wrap64 x).
Proof.
  unfold inInt, wrap64.
  pose proof (Z.mod_pos_bound (x + 2 ^ 63) (2 ^ 64) ltac:(lia)). lia.
Qed.

Lemma wrap64_succ_pred x : inInt x → wrap64 (wrap64 (x + 1) - 1) = x.
Proof.
  unfold inInt, wrap64. intros H.
  destruct (decide (x = 2 ^ 63 - 1)%Z) as [->|Hne]; [reflexivity|].
  rewrite (Z.mod_small (x + 1 + 2 ^ 63)) by lia.
  replace (x + 1 + 2 ^ 63 - 2 ^ 63 - 1 + 2 ^ 63)%Z with (x + 2 ^ 63)%Z by lia.
  rewrite Z.mod_small; lia.
Qed.

Arguments outs : simpl never.
Arguments out : simpl never.
Arguments cr : simpl never.
Arguments outTag : simpl never.
Arguments addAbsPrefix : simpl never.
Arguments ensureUniqueHeadingID : simpl never.

Section Images.
Variables EscapeHTML escLink : bytes → bytes.

(** What [imageEnter] writes when it writes. *)
Definition imgPrefix (dest : bytes) : bytes :=
  B ("<img src=" +:+ DQ) ++ escLink dest ++ B (DQ +:+ " alt=" +:+ DQ).
(** What [imageExit] writes when it writes. *)
Definition imgSuffix (title : option bytes) : bytes :=
  match title with
  | Some t => B (DQ +:+ " title=" +:+ DQ) ++ EscapeHTML t
  | None => []
  end ++ B (DQ +:+ " />").

Lemma imageEnter_eq dest dest' r w :
  addAbsPrefix dest (r, w) = Ok (dest', (r, w)) →
  imageEnter escLink dest (r, w) =
    Ok (tt, (set_disableTags (wrap64 (disableTags r + 1))
               (if (disableTags r =? 0)%Z then set_lastOutputLen 7 r else r),
             w ++ if (disableTags r =? 0)%Z then imgPrefix dest' else [])).
Proof.
  intros Habs. unfold imageEnter, incrDisableTags. munfold. rewrite Habs. simpl.
  destruct (disableTags r =? 0)%Z eqn:Hd; simpl.
  - apply Z.eqb_eq in Hd. repeat (rewrite outs_eq; simpl). rewrite Hd. simpl.
    unfold imgPrefix. by rewrite <- !app_assoc.
  - by rewrite app_nil_r.
Qed.

Lemma imageExit_eq title r w :
  let d := wrap64 (disableTags r - 1) in
  imageExit EscapeHTML title (r, w) =
    Ok (tt, (if (d =? 0)%Z then set_lastOutputLen 4 (set_disableTags d r)
             else set_disableTags d r,
             w ++ if (d =? 0)%Z then imgSuffix title else [])).
Proof.
  unfold imageExit, decrDisableTags. munfold. simpl.
  destruct (wrap64 (disableTags r - 1) =? 0)%Z eqn:Hd; simpl.
  - apply Z.eqb_eq in Hd. unfold imgSuffix.
    destruct title as [t|]; simpl; repeat (rewrite outs_eq; simpl); rewrite Hd; simpl;
      by rewrite <- ?app_assoc.
  - by rewrite app_nil_r.
Qed.

(** What [RenderNode] returns, and what it does to the options and to the
    suppression depth, when no hook is installed. *)
Lemma renderKind_returns c entering r w status r' w' :
  renderKind EscapeHTML escLink c entering (r, w) = Ok (status, (r', w')) →
  opts r' = opts r ∧
  match Data (node c) with
  | ImageData _ _ =>
      if has (Flags (opts r)) SkipImages
      then status = SkipChildren ∧ r' = r ∧ w' = w
      else status = GoToNext ∧
           disableTags r' = wrap64 (if entering then disableTags r + 1
                                    else disableTags r - 1)
  | OtherData _ => False
  | _ => status = GoToNext ∧ disableTags r' = disableTags r
  end.
Proof.
  assert (Hseq : ∀ m : M unit, keeps m →
            (m;; mret GoToNext) (r, w) = Ok (status, (r', w')) →
            opts r' = opts r ∧ status = GoToNext ∧ disableTags r' = disableTags r).
  { intros m Hm. munfold. destruct (m (r, w)) as [[[] [r1 w1]]| |] eqn:Hrun; [|done..].
    intros [= <- <- <-]. destruct (Hm _ _ _ _ _ Hrun). done. }
  unfold renderKind. destruct (Data (node c)) eqn:Hdata;
    try (intros Hrun; eapply Hseq in Hrun; [tauto|];
         eauto using keeps_text, keeps_cr, keeps_hardBreak, keeps_outOneOf,
           keeps_outOneOfCr, keeps_link, keeps_code, keeps_codeBlock, keeps_paragraph,
           keeps_span, keeps_htmlBlock, keeps_heading, keeps_horizontalRule, keeps_list,
           keeps_listItem, keeps_tableCell, keeps_tableBody, keeps_ret; fail).
  - (* image *)
    munfold. simpl. destruct (has (Flags (opts r)) SkipImages); [by intros [= <- <- <-]|].
    unfold image. destruct entering.
    + destruct (addAbsPrefix Destination (r, w)) as [[dest' st]| |] eqn:Habs.
      2,3: unfold imageEnter; munfold; by rewrite Habs.
      pose proof (addAbsPrefix_state _ _ _ _ Habs) as ->.
      rewrite (imageEnter_eq _ _ _ _ Habs). intros [= <- <- <-].
      by destruct (disableTags r =? 0)%Z.
    + rewrite imageExit_eq. intros [= <- <- <-].
      by destruct (wrap64 (disableTags r - 1) =? 0)%Z.
  - (* document *)
    munfold. by intros [= <- <- <-].
  - done.
Qed.

End Images.
(** ** The suppression depth over a walk *)

Definition isImageData (d : NodeData) : bool :=
  match d with ImageData _ _ => true | _ => false end.

(** The depth after [RenderNode] has rendered a node of kind [d]. *)
Definition depthStep (d : NodeData) (entering : bool) (depth : Z) : Z :=
  if isImageData d
  then wrap64 (if entering then depth + 1 else depth - 1) else depth.

Lemma depthStep_inInt d entering depth : inInt depth → inInt (depthStep d entering depth).
Proof. unfold depthStep. destruct (isImageData d); [intros _; apply wrap64_inInt|done]. Qed.

Lemma depthStep_leaf d entering depth :
  isContainer d = false → depthStep d entering depth = depth.
Proof. by destruct d. Qed.

Lemma depthStep_enter_exit d depth :
  inInt depth → depthStep d false (depthStep d true depth) = depth.
Proof.
  unfold depthStep. destruct (isImageData d); [|done]. apply wrap64_succ_pred.
Qed.

Lemma WalkChildren_nil {St} (visit : Cursor → bool → St → res (WalkStatus * NodeData * St))
    anc done s :
  WalkChildren visit anc done [] s = Ok (false, rev done, s).
Proof. reflexivity. Qed.

Lemma WalkChildren_cons {St} (visit : Cursor → bool → St → res (WalkStatus * NodeData * St))
    anc done ch rest s :
  WalkChildren visit anc done (ch :: rest) s =
    '(stop, ch', s') ← Walk visit anc (head done) (head rest) ch s;
    if stop : bool
    then Ok (true, rev_append done (ch' :: rest), s')
    else WalkChildren visit anc (ch' :: done) rest s'.
Proof. reflexivity. Qed.

Arguments Walk : simpl never.
Arguments WalkChildren : simpl never.
Arguments renderVisit : simpl never.
Arguments renderKind : simpl never.

Section Balance.
Variables EscapeHTML escLink : bytes → bytes.

Lemma RenderNode_no_hook c entering r w :
  RenderNodeHook (opts r) = None →
  RenderNode EscapeHTML escLink c entering (r, w)
    = renderKind EscapeHTML escLink c entering (r, w).
Proof. intros H. unfold RenderNode. munfold. simpl. by rewrite H. Qed.

Lemma renderVisit_no_hook c entering r w :
  RenderNodeHook (opts r) = None →
  renderVisit EscapeHTML escLink c entering (r, w) =
    '(status, st') ← renderKind EscapeHTML escLink c entering (r, w);
    Ok (status, Data (node c), st').
Proof. intros H. unfold renderVisit. by rewrite RenderNode_no_hook. Qed.

Lemma renderKind_depth c entering r w status r' w' :
  renderKind EscapeHTML escLink c entering (r, w) = Ok (status, (r', w')) →
  opts r' = opts r ∧
  ((status = SkipChildren ∧ r' = r ∧ w' = w ∧ isImageData (Data (node c)) = true ∧
    has (Flags (opts r)) SkipImages = true)
   ∨ (status = GoToNext ∧
      disableTags r' = depthStep (Data (node c)) entering (disableTags r) ∧
      (isImageData (Data (node c)) = true → has (Flags (opts r)) SkipImages = false))).
Proof.
  intros Hrun. apply renderKind_returns in Hrun as [Hopts Hkind]. split; [done|].
  unfold depthStep. destruct (Data (node c)); simpl in *;
    try (right; destruct Hkind; by split_and!).
  destruct (has (Flags (opts r)) SkipImages).
  - left. destruct Hkind as (? & ? & ?). by split_and!.
  - right. destruct Hkind. by split_and!.
Qed.

(** The property of a subtree that the walk of the renderer over it, when no
    hook is installed, runs to its end, leaves the tree as it is and brings
    the suppression depth back to where it was. *)
Definition balanced (n : Node) : Prop :=
  ∀ anc prev next r w stop n' r' w',
    RenderNodeHook (opts r) = None → inInt (disableTags r) →
    Walk (renderVisit EscapeHTML escLink) anc prev next n (r, w)
      = Ok (stop, n', (r', w')) →
    stop = false ∧ n' = n ∧ opts r' = opts r ∧ disableTags r' = disableTags r.

Lemma WalkChildren_balanced todo :
  Forall balanced todo →
  ∀ anc done r w stop cs' r' w',
    RenderNodeHook (opts r) = None → inInt (disableTags r) →
    WalkChildren (renderVisit EscapeHTML escLink) anc done todo (r, w)
      = Ok (stop, cs', (r', w')) →
    stop = false ∧ cs' = rev done ++ todo ∧ opts r' = opts r ∧
    disableTags r' = disableTags r.
Proof.
  induction 1 as [|ch rest Hch _ IH]; intros anc done r w stop cs' r' w' Hhook Hint.
  - rewrite WalkChildren_nil. intros ?; simplify_eq. by rewrite app_nil_r.
  - rewrite WalkChildren_cons.
    destruct (Walk (renderVisit EscapeHTML escLink) anc (head done) (head rest) ch (r, w))
      as [[[stop1 ch'] [r1 w1]]| |] eqn:Hwalk; simpl; [|done..].
    destruct (Hch _ _ _ _ _ _ _ _ _ Hhook Hint Hwalk) as (-> & -> & Ho & Hd).
    intros Hrest. apply IH in Hrest as (-> & -> & Ho' & Hd'); [|congruence..].
    split_and!; [done| |congruence..]. simpl. by rewrite <- app_assoc.
Qed.

Lemma Walk_balanced n : balanced n.
Proof.
  induction n as [d lit cs IH] using Node_induction.
  intros anc prev next r w stop n' r' w' Hhook Hint. rewrite Walk_unfold.
  rewrite renderVisit_no_hook by done.
  destruct (renderKind _ _ _ true (r, w)) as [[status [r1 w1]]| |] eqn:Henter;
    simpl; [|done..].
  apply renderKind_depth in Henter as [Ho1 Henter]. simpl in Henter.
  destruct (isContainer d) eqn:Hcont; simpl.
  2:{ destruct Henter as [(_ & _ & _ & Himg & _)|(-> & Hd & _)];
        [by destruct d|].
      intros ?; simplify_eq/=. rewrite depthStep_leaf in Hd by done. done. }
  destruct Henter as [(-> & -> & -> & Himg & Hskip)|(-> & Hd1 & Hnoskip)].
  - (* the image is skipped *)
    simpl. rewrite renderVisit_no_hook by done.
    destruct (renderKind _ _ _ false (r, w)) as [[status [r2 w2]]| |] eqn:Hexit;
      simpl; [|done..].
    apply renderKind_depth in Hexit as [Ho2 [(-> & -> & -> & _)|(_ & _ & Hno)]].
    + intros ?; by simplify_eq/=.
    + simpl in Hno. rewrite Hno in Hskip; done.
  - simpl.
    destruct (WalkChildren (renderVisit EscapeHTML escLink) (d :: anc) [] cs (r1, w1))
      as [[[stop1 cs'] [r2 w2]]| |] eqn:Hch; simpl; [|done..].
    apply (WalkChildren_balanced cs IH) in Hch as (-> & -> & Ho2 & Hd2);
      [|congruence|rewrite Hd1; by apply depthStep_inInt].
    simpl. rewrite renderVisit_no_hook by congruence.
    destruct (renderKind _ _ _ false (r2, w2)) as [[status [r3 w3]]| |] eqn:Hexit;
      simpl; [|done..].
    apply renderKind_depth in Hexit as [Ho3 [(_ & _ & _ & Himg & Hskip)|(-> & Hd3 & _)]].
    + simpl in Himg. rewrite Ho2, Ho1, Hnoskip in Hskip; done.
    + intros ?; simplify_eq/=.
      rewrite Hd3, Hd2, Hd1, depthStep_enter_exit by done.
      split_and!; [done..|congruence|done].
Qed.

End Balance.
Lemma renderKind_image EscapeHTML escLink c entering r w dest title :
  Data (node c) = ImageData dest title →
  has (Flags (opts r)) SkipImages = false →
  renderKind EscapeHTML escLink c entering (r, w) =
    '(_, st') ← image EscapeHTML escLink dest title entering (r, w);
    Ok (GoToNext, st').
Proof.
  intros Hdata Hskip. unfold renderKind. rewrite Hdata. munfold. simpl.
  rewrite Hskip. by destruct (image _ _ _ _ _ _) as [[[] ?]| |].
Qed.

Definition altRenderer : Renderer := set_disableTags 1 (rendererWith 0).

(** An image inside the alternative text of an image, and a raw tag there. *)
Example image_in_alt_text :
  written (Render noEscape noEscape
             (MkNode (ImageData (B "i.png") None) []
                [MkNode TextData (B "a") [];
                 MkNode (ImageData (B "j.png") (Some (B "t"))) [] [MkNode TextData (B "b") []];
                 MkNode HTMLSpanData (B "<b>") [];
                 MkNode TextData (B "c") []])
             (rendererWith 0, []))
  = Some (B ("<img src=" +:+ quoted "i.png" +:+ " alt=" +:+ quoted "abc" +:+ " />")).
Proof. vm_compute. reflexivity. Qed.
(** ** When the renderers return *)

(** A method returns, whatever the renderer and the output are. *)
Definition returns {A} (m : M A) : Prop := ∀ st, ∃ a st', m st = Ok (a, st').

Lemma returns_ret {A} (a : A) : returns (mret a).
Proof. intros st. by eexists _, _. Qed.

Lemma returns_bind {A C} (m : M A) (k : A → M C) :
  returns m → (∀ a, returns (k a)) → returns (m ≫= k).
Proof.
  intros Hm Hk st. destruct (Hm st) as (a & st' & Hrun). munfold. rewrite Hrun. apply Hk.
Qed.

Lemma returns_getR : returns getR.
Proof. intros st. by eexists _, _. Qed.
Lemma returns_lift_Ok {A} (a : A) : returns (lift (Ok a)).
Proof. intros st. by eexists _, _. Qed.
Lemma returns_write d : returns (write d).
Proof. intros st. by eexists _, _. Qed.
Lemma returns_writeString s : returns (writeString s).
Proof. apply returns_write. Qed.
Lemma returns_modR f : returns (modR f).
Proof. intros st. by eexists _, _. Qed.
Lemma returns_outs s : returns (outs s).
Proof. intros [r w]. rewrite outs_eq. by eexists _, _. Qed.
Lemma returns_out d : returns (out d).
Proof. intros [r w]. rewrite out_eq. by eexists _, _. Qed.
Lemma returns_cr : returns cr.
Proof. intros [r w]. rewrite cr_eq. destruct (0 <? _)%Z; by eexists _, _. Qed.
Lemma returns_outTag name attrs : returns (outTag name attrs).
Proof. intros [r w]. rewrite outTag_eq. by eexists _, _. Qed.
Lemma returns_when b (m : M unit) : returns m → returns (when b m).
Proof. intros Hm. destruct b; [done|apply returns_ret]. Qed.
Lemma returns_outOneOf b s1 s2 : returns (outOneOf b s1 s2).
Proof. destruct b; apply returns_outs. Qed.
Lemma returns_ensureUniqueHeadingID id : returns (ensureUniqueHeadingID id).
Proof.
  intros [r w]. destruct (ensureUniqueHeadingID_returns id r w) as (? & ? & _ & -> & _).
  by eexists _, _.
Qed.

Create HintDb returns.
#[export] Hint Resolve returns_ret returns_getR returns_lift_Ok returns_write
  returns_writeString returns_modR returns_outs returns_out returns_cr returns_outTag
  returns_outOneOf returns_ensureUniqueHeadingID : returns.

Ltac returns_step :=
  lazymatch goal with
  | |- returns (mbind _ _) => apply returns_bind; [|intros ?]
  | |- returns (when _ _) => apply returns_when
  | |- returns (if ?b then _ else _) => destruct b
  | |- returns (match ?x with _ => _ end) => destruct x
  | |- returns (let _ := _ in _) => cbv zeta
  | |- _ => solve [auto with returns]
  end.
Ltac returns_tac := repeat returns_step.

Lemma B_app (s1 s2 : string) : B (s1 +:+ s2) = B s1 ++ B s2.
Proof. induction s1 as [|c s1 IH]; simpl; [done|]. unfold B in *. simpl. by rewrite IH. Qed.

Lemma B_S (d : bytes) : B (S_ d) = d.
Proof. apply String.list_ascii_of_string_of_list_ascii. Qed.

Lemma S_B (s : string) : S_ (B s) = s.
Proof. apply String.string_of_list_ascii_of_string. Qed.

Lemma isRelativeLink_nonempty link : link ≠ [] → ∃ rel, isRelativeLink link = Ok rel.
Proof.
  destruct link as [|c0 link]; [done|]. intros _. unfold isRelativeLink.
  repeat (case_match; eauto).
Qed.

(** On a destination that is not empty, [addAbsPrefix] returns one that is
    not empty. *)
Lemma addAbsPrefix_returns link r w :
  link ≠ [] → ∃ dest, addAbsPrefix link (r, w) = Ok (dest, (r, w)) ∧ dest ≠ [].
Proof.
  intros Hne. unfold addAbsPrefix. munfold. simpl. case_bool_decide; [|by eauto].
  destruct (isRelativeLink_nonempty link Hne) as [rel ->]. simpl.
  destruct (rel && _); [|by eauto]. eexists; split; [done|].
  rewrite B_app, B_S. intros [_ ?]%app_eq_nil. done.
Qed.
(** ** Paragraphs *)

(** The grandparent of the node is a list with the tight flag set. *)
Definition inTightList (c : Cursor) : bool :=
  match Grandparent c with
  | Some (ListData _ tight _) => tight
  | _ => false
  end.

(** The parent of the node is an item of a list, and a term. *)
Definition inTermItem (c : Cursor) : bool :=
  match Parent c, Grandparent c with
  | Some parent, Some (ListData _ _ _) => isListItemTerm parent
  | _, _ => false
  end.

(** The new line that [paragraphEnter] asks for. *)
Definition paragraphLeadingCr (c : Cursor) (parent : NodeData) : bool :=
  match Prev c with
  | Some prev => isBlockBefore (Data prev)
  | None => isBlockQuoteData parent
  end.

Lemma skipParagraphTags_eq c parent :
  Parent c = Some parent →
  skipParagraphTags c = Ok (inTightList c || inTermItem c).
Proof.
  intros Hp. unfold skipParagraphTags, inTightList, inTermItem. rewrite Hp. simpl.
  destruct (Grandparent c) as [g|]; [|done].
  destruct g as [| | | | | | | | | | | | | | | | |? tight ?| | | | | | |]; simpl; try done.
  all: by destruct tight.
Qed.

Lemma paragraph_skipped c parent entering st :
  Parent c = Some parent → inTightList c || inTermItem c = true →
  paragraph c entering st = Ok (tt, st).
Proof.
  intros Hp Hskip. unfold paragraph. munfold.
  rewrite (skipParagraphTags_eq _ _ Hp), Hskip. by destruct st.
Qed.

Lemma paragraph_enter_written c parent r w :
  Parent c = Some parent → inTightList c || inTermItem c = false →
  (disableTags r <= 0)%Z →
  paragraph c true (r, w) =
    Ok (tt, (set_lastOutputLen 3 r,
             w ++ B ((if paragraphLeadingCr c parent && (0 <? lastOutputLen r)%Z
                      then NL else "") +:+ "<p>"))).
Proof.
  intros Hp Hskip Hd. unfold paragraph. munfold.
  rewrite (skipParagraphTags_eq _ _ Hp), Hskip. simpl.
  unfold paragraphEnter, paragraphLeadingCr. munfold. rewrite Hp.
  assert (Hd' : (0 <? disableTags r)%Z = false) by (apply Z.ltb_ge; lia).
  destruct (Prev c) as [prev|]; simpl.
  - destruct (isBlockBefore (Data prev)); simpl.
    + rewrite cr_eq. destruct (0 <? lastOutputLen r)%Z; simpl;
        rewrite andb_false_r; simpl; rewrite outs_eq; simpl; rewrite Hd';
        by rewrite <- ?app_assoc.
    + rewrite andb_false_r. simpl. rewrite outs_eq. by rewrite Hd'.
  - rewrite andb_true_r. destruct (isBlockQuoteData parent); simpl.
    + rewrite cr_eq. destruct (0 <? lastOutputLen r)%Z; simpl; rewrite outs_eq; simpl;
        rewrite Hd'; by rewrite <- ?app_assoc.
    + rewrite outs_eq. by rewrite Hd'.
Qed.

Lemma paragraph_exit_written c parent r w :
  Parent c = Some parent → inTightList c || inTermItem c = false →
  (disableTags r <= 0)%Z →
  paragraph c false (r, w) =
    if isListItemData parent && bool_decide (Next c = None)
    then Ok (tt, (set_lastOutputLen 4 r, w ++ B "</p>"))
    else Ok (tt, (set_lastOutputLen 1 r, w ++ B ("</p>" +:+ NL))).
Proof.
  intros Hp Hskip Hd. unfold paragraph. munfold.
  rewrite (skipParagraphTags_eq _ _ Hp), Hskip. simpl.
  unfold paragraphExit. munfold. rewrite Hp, outs_eq.
  assert (Hd' : (0 <? disableTags r)%Z = false) by (apply Z.ltb_ge; lia).
  rewrite Hd'. simpl.
  destruct (isListItemData parent && bool_decide (Next c = None)); simpl; [done|].
  rewrite cr_eq. simpl. by rewrite <- app_assoc.
Qed.
(** ** The dispatcher *)

(** What the node renderers take for granted of the place of a node: a
    parent; for a list inside an item, a grandparent; for an item after
    another, a list as parent; for a link or an image, a destination that is
    not empty. *)
Definition placed (c : Cursor) : Prop :=
  is_Some (Parent c) ∧
  match Data (node c) with
  | LinkData dest _ _ | ImageData dest _ => dest ≠ []
  | ListData _ _ _ =>
      (∃ p, Parent c = Some p ∧ isListItemData p = true) → is_Some (Grandparent c)
  | ListItemData _ _ =>
      is_Some (Prev c) → ∃ p, Parent c = Some p ∧ isListData p = true
  | _ => True
  end.

Definition knownKind (d : NodeData) : bool :=
  match d with OtherData _ => false | _ => true end.

(** No hook is installed, or the hook reports that it did not handle the
    node; and what the hook wrote to [w]. *)
Definition notHandled (r : Renderer) (c : Cursor) (entering : bool) : Prop :=
  match RenderNodeHook (opts r) with
  | Some hook => (hook c entering).2 = false
  | None => True
  end.
Definition hookWritten (r : Renderer) (c : Cursor) (entering : bool) : bytes :=
  match RenderNodeHook (opts r) with
  | Some hook => (hook c entering).1.1
  | None => []
  end.

Lemma lift_Ok_bind {A C} (a : A) (k : A → M C) : (lift (Ok a) ≫= k) = k a.
Proof. reflexivity. Qed.

Section Dispatch.
Variables EscapeHTML escLink : bytes → bytes.

Lemma returns_outOneOfCr b s1 s2 : returns (outOneOfCr b s1 s2).
Proof. unfold outOneOfCr. returns_tac. Qed.

Lemma returns_outHRTag : returns outHRTag.
Proof. unfold outHRTag. returns_tac. Qed.

Lemma returns_link dest title noteID entering :
  dest ≠ [] → returns (link EscapeHTML escLink dest title noteID entering).
Proof.
  intros Hne [r w]. unfold link. munfold. simpl.
  destruct (needSkipLink _ _); [apply returns_outOneOf|].
  destruct entering.
  - unfold linkEnter. munfold.
    destruct (addAbsPrefix_returns dest r w Hne) as (dest' & -> & Hne'). simpl.
    case_bool_decide; [apply returns_outs|].
    destruct (isRelativeLink_nonempty dest' Hne') as [rel Hrel].
    rewrite (appendLinkAttrs_eq _ _ _ rel Hrel). simpl.
    apply returns_outTag.
  - unfold linkExit. apply returns_when, returns_outs.
Qed.

Lemma returns_image dest title entering :
  dest ≠ [] → returns (image EscapeHTML escLink dest title entering).
Proof.
  intros Hne [r w]. destruct entering; simpl.
  - destruct (addAbsPrefix_returns dest r w Hne) as (dest' & Habs & _).
    rewrite (imageEnter_eq _ _ _ _ _ Habs). by eexists _, _.
  - rewrite imageExit_eq. by eexists _, _.
Qed.

(** Without a hook, [RenderNode] returns on every node of a known kind that
    is placed as the renderers expect. *)
Lemma renderKind_placed_returns c entering :
  placed c → knownKind (Data (node c)) = true →
  returns (renderKind EscapeHTML escLink c entering).
Proof.
  intros [[p Hp] Hplace] Hknown. unfold renderKind.
  pose proof returns_outOneOfCr. pose proof returns_outHRTag.
  destruct (Data (node c)) eqn:Hdata; try done.
  all: try (unfold text, hardBreak, code, codeBlock, span, htmlBlock, horizontalRule,
              tableCell, tableBody, paragraph, paragraphEnter, paragraphExit,
              skipParagraphTags, heading, headingEnter, headingExit;
            rewrite ?Hp; simpl; returns_tac; fail).
  - apply returns_bind; [by apply returns_link|intros; apply returns_ret].
  - apply returns_bind; [apply returns_getR|intros r].
    destruct (has _ _); [apply returns_ret|].
    apply returns_bind; [by apply returns_image|intros; apply returns_ret].
  - (* paragraph *)
    unfold paragraph. rewrite (skipParagraphTags_eq _ _ Hp).
    apply returns_bind; [|intros; apply returns_ret].
    apply returns_bind; [apply returns_lift_Ok|intros skip].
    destruct skip; [apply returns_ret|].
    destruct entering; unfold paragraphEnter, paragraphExit; rewrite Hp; simpl;
      returns_tac.
  - (* list *)
    unfold list_, listEnter, listExit. rewrite Hp. simpl. rewrite !lift_Ok_bind.
    destruct (Grandparent c) as [g|] eqn:Hg; simpl; [returns_tac|].
    destruct (isListItemData p) eqn:Hitem; [|returns_tac].
    destruct Hplace as [g Hg']; [eauto|done].
  - (* list item *)
    unfold listItem, listItemEnter, listItemExit, itemOpenCR.
    destruct (Prev c) as [prev|] eqn:Hprev.
    + destruct Hplace as (p' & Hp' & Hlist); [eauto|].
      rewrite Hp' in *. simpl. destruct p'; try done. simpl. returns_tac.
    + simpl. returns_tac.
Qed.

Lemma RenderNode_not_handled c entering r w :
  notHandled r c entering →
  RenderNode EscapeHTML escLink c entering (r, w)
    = renderKind EscapeHTML escLink c entering (r, w ++ hookWritten r c entering).
Proof.
  unfold notHandled, hookWritten, RenderNode. munfold. simpl.
  destruct (RenderNodeHook (opts r)) as [hook|]; [|by rewrite app_nil_r].
  destruct (hook c entering) as [[written status] didHandle]. simpl. by intros ->.
Qed.

(** C8 (as amended).  On a node of a kind outside the enumeration, when no
    hook reports it handled, [RenderNode] panics.  On a node of a known kind
    it returns whenever the node is placed as the renderers expect, and
    whenever it returns its status is [GoToNext], but for an image under the
    [SkipImages] flag, where it is [SkipChildren]. *)
Theorem RenderNode_status (c : Cursor) (entering : bool) (r : Renderer) (w : bytes) :
  notHandled r c entering →
  (∀ kind, Data (node c) = OtherData kind →
     RenderNode EscapeHTML escLink c entering (r, w) = Panic (UnknownNodeType kind))
  ∧ (knownKind (Data (node c)) = true → placed c →
       ∃ status st', RenderNode EscapeHTML escLink c entering (r, w) = Ok (status, st'))
  ∧ (∀ status st',
       RenderNode EscapeHTML escLink c entering (r, w) = Ok (status, st') →
       knownKind (Data (node c)) = true ∧
       if isImageData (Data (node c)) && has (Flags (opts r)) SkipImages
       then status = SkipChildren else status = GoToNext).
Proof.
  intros Hhook. rewrite RenderNode_not_handled by done. split_and!.
  - intros kind Hkind. unfold renderKind. by rewrite Hkind.
  - intros Hknown Hplaced. by apply renderKind_placed_returns.
  - intros status [r' w'] Hrun. apply renderKind_returns in Hrun as [_ Hkind].
    destruct (Data (node c)); simpl in *; try done; try (split; [done|tauto]).
    destruct (has _ _); destruct Hkind as [-> _]; by split.
Qed.

End Dispatch.

Definition emphCursor : Cursor :=
  {| node := MkNode EmphData [] []; ancestors := [ParagraphData];
     Prev := None; Next := None |}.

Lemma RenderNode_status_witness :
  notHandled (rendererWith 0) emphCursor true ∧
  knownKind (Data (node emphCursor)) = true ∧ placed emphCursor ∧
  ∃ status st',
    RenderNode noEscape noEscape emphCursor true (rendererWith 0, []) = Ok (status, st').
Proof.
  assert (H1 : notHandled (rendererWith 0) emphCursor true) by exact I.
  assert (H2 : knownKind (Data (node emphCursor)) = true) by reflexivity.
  assert (H3 : placed emphCursor) by (split; [by eexists|done]).
  split_and!; [exact H1|exact H2|exact H3|].
  exact (proj1 (proj2 (RenderNode_status noEscape noEscape emphCursor true
                         (rendererWith 0) [] H1)) H2 H3).
Defined.

(** C8, as stated, fails for an image when images are skipped: the node is of
    a known kind and the status is [SkipChildren]. *)
Lemma RenderNode_image_skipped :
  let c := {| node := MkNode (ImageData (B "i.png") None) [] [];
              ancestors := [ParagraphData]; Prev := None; Next := None |} in
  knownKind (Data (node c)) = true ∧
  value (RenderNode noEscape noEscape c true (rendererWith SkipImages, []))
    = Some SkipChildren ∧
  value (RenderNode noEscape noEscape c true (rendererWith SkipImages, []))
    ≠ Some GoToNext.
Proof. vm_compute. by split_and!. Qed.
(** ** A list of paragraphs *)

Definition noFlags : ListType :=
  {| ListTypeOrdered := false; ListTypeDefinition := false; ListTypeTerm := false |}.
Definition paragraphItem (t : bytes) : Node :=
  MkNode (ListItemData noFlags None) []
    [MkNode ParagraphData [] [MkNode TextData t []]].
Definition paragraphList (tight : bool) (ts : list bytes) : Node :=
  MkNode (ListData noFlags tight false) [] (map paragraphItem ts).

Ltac walk_step :=
  first
    [ rewrite Walk_unfold
    | rewrite WalkChildren_cons
    | rewrite WalkChildren_nil
    | rewrite renderVisit_no_hook by (simpl; assumption)
    | rewrite outs_eq
    | rewrite cr_eq
    | rewrite outTag_eq
    | rewrite out_eq
    | match goal with H : has _ _ = _ |- _ => rewrite H end
    | match goal with H : (_ <? _)%Z = _ |- _ => rewrite H end
    | progress (unfold renderKind, text, paragraph, paragraphEnter, paragraphExit,
                  listItem, listItemEnter, listItemExit, list_, listEnter, listExit;
                munfold; simpl) ].
Ltac walk_run := repeat walk_step.

Section ParagraphList.
Variables EscapeHTML escLink : bytes → bytes.

(** What the item with the text [t] writes; [lead] tells that the item is not
    the first and that the last write was not empty. *)
Definition itemOut (tight lead : bool) (t : bytes) : bytes :=
  B ((if negb tight && lead then NL else "") +:+ "<li>" +:+ (if tight then "" else "<p>"))
  ++ EscapeHTML t
  ++ B ((if tight then "" else "</p>") +:+ "</li>" +:+ NL).

Fixpoint itemsOut (tight lead : bool) (ts : list bytes) : bytes :=
  match ts with
  | [] => []
  | t :: rest => itemOut tight lead t ++ itemsOut tight true rest
  end.

(** The renderer is as [NewRenderer] makes it but for the last output length:
    no hook, no smartypants, outside an image. *)
Definition plain (r : Renderer) : Prop :=
  RenderNodeHook (opts r) = None ∧ has (Flags (opts r)) Smartypants = false ∧
  (disableTags r <= 0)%Z.

Lemma Walk_paragraphItem tight anc prev next t r w :
  plain r →
  Walk (renderVisit EscapeHTML escLink) (ListData noFlags tight false :: anc)
       prev next (paragraphItem t) (r, w) =
    Ok (false, paragraphItem t,
        (set_lastOutputLen 1 r,
         w ++ itemOut tight (bool_decide (is_Some prev) && (0 <? lastOutputLen r)%Z) t)).
Proof.
  intros (Hhook & Hsp & Hd).
  assert (Hd' : (0 <? disableTags r)%Z = false) by (apply Z.ltb_ge; lia).
  unfold paragraphItem, itemOut.
  destruct (0 <? lastOutputLen r)%Z eqn:Hl, prev as [prev|], tight, next as [next|];
    walk_run; rewrite <- ?app_assoc; reflexivity.
Qed.

Lemma WalkChildren_paragraphItems tight anc ts :
  ∀ done r w, plain r →
    WalkChildren (renderVisit EscapeHTML escLink) (ListData noFlags tight false :: anc)
      done (map paragraphItem ts) (r, w) =
      Ok (false, rev done ++ map paragraphItem ts,
          (match ts with [] => r | _ => set_lastOutputLen 1 r end,
           w ++ itemsOut tight
                  (bool_decide (is_Some (head done)) && (0 <? lastOutputLen r)%Z) ts)).
Proof.
  induction ts as [|t ts IH]; intros done r w Hplain.
  - rewrite WalkChildren_nil. simpl. by rewrite !app_nil_r.
  - simpl map. rewrite WalkChildren_cons, Walk_paragraphItem by done. simpl.
    rewrite IH by done. simpl. rewrite <- !app_assoc. simpl.
    by destruct ts.
Qed.

(** A document that holds one list of paragraphs: in a tight list the text of
    an item stands bare between [<li>] and [</li>], in a loose list it stands
    between [<p>] and [</p>]. *)
Lemma Render_paragraphList tight ts r w :
  plain r →
  Render EscapeHTML escLink (MkNode DocumentData [] [paragraphList tight ts]) (r, w) =
    Ok (tt, (set_lastOutputLen 1 r,
             w ++ B ((if (0 <? lastOutputLen r)%Z then NL else "") +:+ "<ul>" +:+ NL)
               ++ itemsOut tight false ts ++ B ("</ul>" +:+ NL))).
Proof.
  intros Hplain. pose proof Hplain as (Hhook & Hsp & Hd).
  assert (Hd' : (0 <? disableTags r)%Z = false) by (apply Z.ltb_ge; lia).
  unfold Render, paragraphList.
  destruct (0 <? lastOutputLen r)%Z eqn:Hl; walk_run;
    rewrite WalkChildren_paragraphItems by done; simpl;
    destruct ts; walk_run; rewrite <- ?app_assoc; reflexivity.
Qed.

End ParagraphList.
(** C7.  [paragraph] writes nothing and leaves the renderer as it is exactly
    when the grandparent of the paragraph is a tight list or its parent is a
    term item of a list; otherwise, outside the alternative text of an image,
    it writes [<p>] on entering and [</p>] on exiting, with the new lines that
    go with them.  So a tight list of paragraphs is rendered without any
    [<p>], and the same list, loose, with [<p>] and [</p>] around the content
    of each item. *)
Theorem paragraph_tags EscapeHTML escLink :
  (∀ c parent, Parent c = Some parent →
     skipParagraphTags c = Ok (inTightList c || inTermItem c))
  ∧ (∀ c parent entering st,
       Parent c = Some parent → inTightList c || inTermItem c = true →
       paragraph c entering st = Ok (tt, st))
  ∧ (∀ c parent r w,
       Parent c = Some parent → inTightList c || inTermItem c = false →
       (disableTags r <= 0)%Z →
       paragraph c true (r, w) =
         Ok (tt, (set_lastOutputLen 3 r,
                  w ++ B ((if paragraphLeadingCr c parent && (0 <? lastOutputLen r)%Z
                           then NL else "") +:+ "<p>")))
       ∧ paragraph c false (r, w) =
           if isListItemData parent && bool_decide (Next c = None)
           then Ok (tt, (set_lastOutputLen 4 r, w ++ B "</p>"))
           else Ok (tt, (set_lastOutputLen 1 r, w ++ B ("</p>" +:+ NL))))
  ∧ (∀ tight ts r w,
       plain r →
       Render EscapeHTML escLink
         (MkNode DocumentData [] [paragraphList tight ts]) (r, w) =
         Ok (tt, (set_lastOutputLen 1 r,
                  w ++ B ((if (0 <? lastOutputLen r)%Z then NL else "")
                          +:+ "<ul>" +:+ NL)
                    ++ itemsOut EscapeHTML tight false ts ++ B ("</ul>" +:+ NL)))).
Proof.
  split_and!.
  - apply skipParagraphTags_eq.
  - intros. by eapply paragraph_skipped.
  - intros c parent r w Hp Hskip Hd. split.
    + by apply paragraph_enter_written.
    + by apply paragraph_exit_written.
  - apply Render_paragraphList.
Qed.

Lemma plain_rendererWith_0 : plain (rendererWith 0).
Proof. split_and!; [reflexivity..|simpl; lia]. Defined.

Lemma paragraph_tags_witness :
  plain (rendererWith 0) ∧
  Render noEscape noEscape
    (MkNode DocumentData [] [paragraphList true [B "a"; B "b"]]) (rendererWith 0, []) =
    Ok (tt, (set_lastOutputLen 1 (rendererWith 0),
             B ("<ul>" +:+ NL +:+ "<li>a</li>" +:+ NL +:+ "<li>b</li>" +:+ NL
                +:+ "</ul>" +:+ NL))) ∧
  Render noEscape noEscape
    (MkNode DocumentData [] [paragraphList false [B "a"; B "b"]]) (rendererWith 0, []) =
    Ok (tt, (set_lastOutputLen 1 (rendererWith 0),
             B ("<ul>" +:+ NL +:+ "<li><p>a</p></li>" +:+ NL +:+ NL
                +:+ "<li><p>b</p></li>" +:+ NL +:+ "</ul>" +:+ NL))).
Proof.
  split_and!; [exact plain_rendererWith_0|..].
  - exact (proj2 (proj2 (proj2 (paragraph_tags noEscape noEscape)))
             true [B "a"; B "b"] (rendererWith 0) [] plain_rendererWith_0).
  - exact (proj2 (proj2 (proj2 (paragraph_tags noEscape noEscape)))
             false [B "a"; B "b"] (rendererWith 0) [] plain_rendererWith_0).
Defined.
(** ** The table of contents *)

Definition tocAnchor (n : Z) : string :=
  "<a href=" +:+ DQ +:+ "#toc_" +:+ Itoa n +:+ DQ +:+ ">".

(** A heading that holds one text. *)
Definition tocHeading (level : Z) (id : string) (t : bytes) : Node :=
  MkNode (HeadingData level id false) [] [MkNode TextData t []].

(** A document whose headings have the levels 1, 2, 2, 1, 3. *)
Definition tocDocument (ids : nat → string) (ts : nat → bytes) : Node :=
  MkNode DocumentData []
    [tocHeading 1 (ids 0) (ts 0); tocHeading 2 (ids 1) (ts 1); tocHeading 2 (ids 2) (ts 2);
     tocHeading 1 (ids 3) (ts 3); tocHeading 3 (ids 4) (ts 4)].

Definition tocIds (n : nat) : string := "toc_" +:+ Itoa (Z.of_nat n).

Section TableOfContents.
Variables EscapeHTML escLink : bytes → bytes.

(** What [writeTOC] collects for that document. *)
Definition tocOf (ts : nat → bytes) : bytes :=
  B (tocOpen +:+ tocAnchor 0) ++ EscapeHTML (ts 0) ++ B "</a>"
  ++ B (tocOpen +:+ tocAnchor 1) ++ EscapeHTML (ts 1) ++ B "</a>"
  ++ B (tocSibling +:+ tocAnchor 2) ++ EscapeHTML (ts 2) ++ B "</a>"
  ++ B (tocClose +:+ tocSibling +:+ tocAnchor 3) ++ EscapeHTML (ts 3) ++ B "</a>"
  ++ B (tocOpen +:+ tocOpen +:+ tocAnchor 4) ++ EscapeHTML (ts 4) ++ B "</a>"
  ++ B (tocClose +:+ tocClose +:+ tocClose).

(** What the claim describes: two closings and an opening at the second
    heading of level 1, and two closings at the end. *)
Definition tocClaimed (ts : nat → bytes) : bytes :=
  B (tocOpen +:+ tocAnchor 0) ++ EscapeHTML (ts 0) ++ B "</a>"
  ++ B (tocOpen +:+ tocAnchor 1) ++ EscapeHTML (ts 1) ++ B "</a>"
  ++ B (tocSibling +:+ tocAnchor 2) ++ EscapeHTML (ts 2) ++ B "</a>"
  ++ B (tocClose +:+ tocClose +:+ tocOpen +:+ tocAnchor 3) ++ EscapeHTML (ts 3) ++ B "</a>"
  ++ B (tocOpen +:+ tocOpen +:+ tocAnchor 4) ++ EscapeHTML (ts 4) ++ B "</a>"
  ++ B (tocClose +:+ tocClose).

Ltac toc_step :=
  first
    [ rewrite Walk_unfold
    | rewrite WalkChildren_cons
    | rewrite WalkChildren_nil
    | rewrite RenderNode_no_hook by (simpl; assumption)
    | match goal with H : has _ _ = _ |- _ => rewrite H end
    | progress (unfold tocVisit, renderKind, text; munfold; simpl) ].

Local Arguments B : simpl never.
Local Arguments app : simpl never.
Local Arguments length : simpl never.
Local Arguments Itoa : simpl never.
Local Arguments wrap64 : simpl never.
Local Arguments String.append : simpl never.

(** C4 (as amended).  On headings of levels 1, 2, 2, 1, 3 [writeTOC] opens
    one list at the first heading, one more at the second, closes and opens
    an item at the third, closes one list and then closes and opens an item
    at the fourth, opens two lists at the fifth, and closes three lists after
    the walk; the headings are renamed [toc_0] to [toc_4] in that order. *)
Theorem writeTOC_levels_12213 ids ts r w :
  plain r →
  writeTOC EscapeHTML escLink (tocDocument ids ts) (r, w) =
    Ok (tocDocument tocIds ts,
        (set_lastOutputLen (Z.of_nat (length (tocOf ts))) r,
         w ++ B ("<nav>" +:+ NL) ++ tocOf ts ++ B (NL +:+ NL +:+ "</nav>" +:+ NL))).
Proof.
  intros (Hhook & Hsp & Hd). unfold writeTOC, tocDocument, tocHeading.
  repeat toc_step.
  unfold tocOf, tocAnchor. rewrite !B_app, <- !app_assoc. reflexivity.
Qed.

End TableOfContents.

Lemma writeTOC_levels_12213_witness :
  plain (rendererWith TOC) ∧
  writeTOC noEscape noEscape (tocDocument (fun _ => "h") (fun _ => B "t"))
    (rendererWith TOC, []) =
    Ok (tocDocument tocIds (fun _ => B "t"),
        (set_lastOutputLen (Z.of_nat (length (tocOf noEscape (fun _ => B "t"))))
           (rendererWith TOC),
         B ("<nav>" +:+ NL) ++ tocOf noEscape (fun _ => B "t")
           ++ B (NL +:+ NL +:+ "</nav>" +:+ NL))).
Proof.
  assert (H : plain (rendererWith TOC)) by (split_and!; [reflexivity..|simpl; lia]).
  split; [exact H|].
  exact (writeTOC_levels_12213 noEscape noEscape (fun _ => "h") (fun _ => B "t")
           (rendererWith TOC) [] H).
Defined.

(** C4, as stated, fails: what [writeTOC] writes is not what the claim
    describes (two closings and an opening at the fourth heading, two
    closings at the end). *)
Lemma writeTOC_levels_12213_not_as_claimed :
  let ts := fun _ : nat => B "t" in
  written (writeTOC noEscape noEscape (tocDocument (fun _ => "h") ts)
             (rendererWith TOC, []))
    = Some (B ("<nav>" +:+ NL) ++ tocOf noEscape ts
            ++ B (NL +:+ NL +:+ "</nav>" +:+ NL)) ∧
  tocOf noEscape ts ≠ tocClaimed noEscape ts.
Proof.
  split; [vm_compute; reflexivity|].
  intros H. apply (f_equal length) in H. vm_compute in H. discriminate.
Qed.
(** ** Scanning for an HTML tag *)

(** The punctuation symbols are the printable ASCII characters, the space
    apart, that are neither letters nor digits. *)
Theorem isPunctuation_printable (c : ascii) :
  isPunctuation c = byte_leb "!" c && byte_leb c "~" && negb (isAlnum c).
Proof. destruct c as [[] [] [] [] [] [] [] []]; vm_compute; reflexivity. Qed.

Lemma skipSpaceFrom_spec rest i :
  let j := skipSpaceFrom rest i in
  i <= j <= i + length rest ∧
  (∀ k, k < j - i → ∃ c, rest !! k = Some c ∧ isSpace c = true) ∧
  (∀ c, rest !! (j - i) = Some c → isSpace c = false).
Proof.
  revert i. induction rest as [|c rest IH]; intros i; simpl.
  - split_and!; [lia..|intros; lia|done].
  - destruct (isSpace c) eqn:Hc.
    + destruct (IH (S i)) as ((Hl & Hu) & Hsp & Hstop). split_and!; [lia..| |].
      * intros [|k] Hk; [eauto|]. simpl. apply Hsp. lia.
      * intros c'. replace (skipSpaceFrom rest (S i) - i)
          with (S (skipSpaceFrom rest (S i) - S i)) by lia. simpl. apply Hstop.
    + rewrite Nat.sub_diag. split_and!; [lia..|intros; lia|].
      simpl. by intros c' [= <-].
Qed.

(** [skipSpace] panics on a negative index; from an index that is not
    negative it returns the first index at or after it that does not hold a
    white-space character, or the index itself when that is beyond the end. *)
Theorem skipSpace_stops (data : bytes) (i : Z) :
  ((i < 0)%Z → skipSpace data i = Panic IndexOutOfRange) ∧
  ((0 <= i)%Z →
     ∃ j : nat,
       skipSpace data i = Ok (Z.of_nat j) ∧
       Z.to_nat i <= j <= Z.to_nat i `max` length data ∧
       (∀ k, Z.to_nat i <= k < j → ∃ c, data !! k = Some c ∧ isSpace c = true) ∧
       (∀ c, data !! j = Some c → isSpace c = false)).
Proof.
  unfold skipSpace. split; intros Hi.
  - by rewrite (proj2 (Z.ltb_lt _ _) Hi).
  - rewrite (proj2 (Z.ltb_ge _ _) Hi). eexists. split; [done|].
    set (n := Z.to_nat i).
    destruct (skipSpaceFrom_spec (drop n data) n) as ((Hl & Hu) & Hsp & Hstop).
    rewrite length_drop in Hu. split_and!; [lia..| |].
    + intros k Hk. destruct (Hsp (k - n)) as (c & Hc & Hs); [lia|].
      rewrite lookup_drop in Hc. replace (n + (k - n)) with k in Hc by lia. eauto.
    + intros c Hc. apply Hstop. rewrite lookup_drop.
      by replace (n + (skipSpaceFrom (drop n data) n - n))
        with (skipSpaceFrom (drop n data) n) by lia.
Qed.

Lemma skipSpace_stops_witness :
  (0 <= 1)%Z ∧
  ∃ j : nat,
    skipSpace (B "<  div") 1 = Ok (Z.of_nat j) ∧
    Z.to_nat 1 <= j <= Z.to_nat 1 `max` length (B "<  div") ∧
    (∀ k, Z.to_nat 1 <= k < j → ∃ c, B "<  div" !! k = Some c ∧ isSpace c = true) ∧
    (∀ c, B "<  div" !! j = Some c → isSpace c = false).
Proof.
  assert (H : (0 <= 1)%Z) by lia.
  split; [exact H|]. exact (proj2 (skipSpace_stops (B "<  div") 1) H).
Defined.

Lemma skipUntilFrom_spec rest i start char q1 q2 q3 :
  let r := skipUntilFrom rest i start char q1 q2 q3 in
  r = start ∨ (i <= r < i + length rest ∧ rest !! (r - i) = Some char).
Proof.
  revert i q1 q2 q3. induction rest as [|c rest IH]; intros i q1 q2 q3; simpl; [by left|].
  assert (Hrec : ∀ q1 q2 q3,
            skipUntilFrom rest (S i) start char q1 q2 q3 = start
            ∨ (i <= skipUntilFrom rest (S i) start char q1 q2 q3 < i + S (length rest)
               ∧ (c :: rest) !! (skipUntilFrom rest (S i) start char q1 q2 q3 - i)
                 = Some char)).
  { intros q1' q2' q3'. destruct (IH (S i) q1' q2' q3') as [?|((? & ?) & Hr)]; [by left|].
    right. split; [lia|].
    replace (skipUntilFrom rest (S i) start char q1' q2' q3' - i)
      with (S (skipUntilFrom rest (S i) start char q1' q2' q3' - S i)) by lia.
    done. }
  destruct (bool_decide (c = char) && negb q1 && negb q2 && negb q3) eqn:Hfound.
  - right. apply andb_true_iff in Hfound as [[[->%bool_decide_eq_true _]%andb_true_iff _]%andb_true_iff _].
    rewrite Nat.sub_diag. split; [lia|done].
  - repeat case_bool_decide; apply Hrec.
Qed.

(** [skipUntilCharIgnoreQuotes] panics on a negative start; otherwise it
    returns the start itself or a later index below the length that holds the
    character.  The value returned is never below the start. *)
Theorem skipUntilCharIgnoreQuotes_result (html : bytes) (start : Z) (char : ascii) :
  ((start < 0)%Z → skipUntilCharIgnoreQuotes html start char = Panic IndexOutOfRange) ∧
  ((0 <= start)%Z →
     ∃ r : Z,
       skipUntilCharIgnoreQuotes html start char = Ok r ∧ (start <= r)%Z ∧
       (r = start ∨
        ((r < Z.of_nat (length html))%Z ∧ html !! Z.to_nat r = Some char))).
Proof.
  unfold skipUntilCharIgnoreQuotes. split; intros Hs.
  - by rewrite (proj2 (Z.ltb_lt _ _) Hs).
  - rewrite (proj2 (Z.ltb_ge _ _) Hs). eexists. split; [done|].
    set (n := Z.to_nat start).
    destruct (skipUntilFrom_spec (drop n html) n n char false false false)
      as [->|((Hl & Hu) & Hr)].
    + split; [lia|left; lia].
    + rewrite length_drop in Hu. rewrite lookup_drop in Hr. split; [lia|]. right.
      destruct (decide (n + length html - n = 0)); [lia|].
      split; [lia|]. rewrite Nat2Z.id.
      by replace (n + (skipUntilFrom (drop n html) n n char false false false - n))
        with (skipUntilFrom (drop n html) n n char false false false) in Hr by lia.
Qed.

Lemma skipUntilCharIgnoreQuotes_result_witness :
  (0 <= 1)%Z ∧
  ∃ r : Z,
    skipUntilCharIgnoreQuotes (B "<a b='>'>") 1 ">" = Ok r ∧ (1 <= r)%Z ∧
    (r = 1%Z ∨
     ((r < Z.of_nat (length (B "<a b='>'>")))%Z ∧
      B "<a b='>'>" !! Z.to_nat r = Some ">"%char)).
Proof.
  assert (H : (0 <= 1)%Z) by lia.
  split; [exact H|].
  exact (proj2 (skipUntilCharIgnoreQuotes_result (B "<a b='>'>") 1 ">") H).
Defined.
Lemma tagNameLoop_bounds rest i name i' :
  tagNameLoop rest i name = Some i' → i <= i' <= i + length rest.
Proof.
  revert i name. induction rest as [|c rest IH]; intros i name; simpl.
  - intros [= <-]. lia.
  - destruct name as [|n name]; [intros [= <-]; lia|].
    case_bool_decide; [done|]. intros Hrun%IH. lia.
Qed.

(** [findHTMLTagPos] never panics.  When it reports no tag the position is
    -1; when it reports a tag the position is at least 1, and for a tag that
    is not empty it is below the length of the tag, which starts with [<].
    On the empty input it reports a tag, at position 1. *)
Theorem findHTMLTagPos_position (tag : bytes) (tagname : string) :
  findHTMLTagPos [] tagname = Ok (true, 1%Z) ∧
  ∃ found pos,
    findHTMLTagPos tag tagname = Ok (found, pos) ∧
    (found = false → pos = (-1)%Z) ∧
    (found = true →
       (1 <= pos)%Z ∧
       (tag ≠ [] → (pos < Z.of_nat (length tag))%Z ∧ head tag = Some "<"%char)).
Proof.
  split; [reflexivity|].
  unfold findHTMLTagPos.
  destruct ((0 <? length tag) && bool_decide (tag !! 0 ≠ Some "<"%char)) eqn:Hfirst.
  { eexists _, _. by split_and!. }
  assert (Hhead : tag ≠ [] → head tag = Some "<"%char).
  { destruct tag as [|c tag]; [done|]. intros _. simpl in Hfirst.
    apply bool_decide_eq_false in Hfirst. simpl.
    by destruct (decide (Some c = Some "<"%char)). }
  destruct (proj2 (skipSpace_stops tag 1) ltac:(lia)) as (j1 & -> & (Hl1 & Hu1) & _).
  simpl.
  set (i2 := if _ && _ then _ else _).
  assert (Hi2 : (1 <= i2 <= Z.of_nat (1 `max` length tag))%Z).
  { subst i2. destruct ((Z.of_nat j1 <? Z.of_nat (length tag))%Z) eqn:Hlt; cbn [andb].
    - apply Z.ltb_lt in Hlt. destruct (bool_decide (tag !! _ = Some "/"%char)); lia.
    - lia. }
  destruct (proj2 (skipSpace_stops tag i2) ltac:(lia)) as (j2 & -> & (Hl2 & Hu2) & _).
  simpl. rewrite Nat2Z.id.
  destruct (tagNameLoop (drop j2 tag) j2 (B tagname)) as [i3|] eqn:Hname.
  2:{ eexists _, _. by split_and!. }
  apply tagNameLoop_bounds in Hname. rewrite length_drop in Hname.
  destruct (decide (i3 = length tag)) as [Hend|Hend].
  { rewrite bool_decide_eq_true_2 by done. eexists _, _. by split_and!. }
  rewrite bool_decide_eq_false_2 by done.
  destruct (proj2 (skipUntilCharIgnoreQuotes_result tag (Z.of_nat i3) ">") ltac:(lia))
    as (r & -> & Hr & Hwhere).
  simpl. rewrite (proj2 (Z.leb_le _ _) Hr).
  eexists _, _. split_and!; [done|done|]. intros _. split; [lia|].
  intros Hne. split; [|by apply Hhead].
  assert (0 < length tag) by (destruct tag; simpl; [done|lia]).
  destruct Hwhere as [->|[Hlt _]]; lia.
Qed.

(** A tag is reported even where no [>] follows the name: the position is
    then the index after the name. *)
Example findHTMLTagPos_without_angle :
  findHTMLTagPos (B "<div x") "div" = Ok (true, 4%Z) ∧ B "<div x" !! 4 = Some " "%char.
Proof. split; reflexivity. Qed.
(** ** More on slugs and heading identifiers *)

Lemma slugify_trimmed_witness :
  Exists (fun c => isAlnum c = true) (B "- a, b -") ∧
  head (slugify (B "- a, b -")) ≠ Some dash ∧ last (slugify (B "- a, b -")) ≠ Some dash.
Proof.
  assert (H : Exists (fun c => isAlnum c = true) (B "- a, b -"))
    by (apply Exists_cons_tl, Exists_cons_tl, Exists_cons_hd; reflexivity).
  split; [exact H|]. exact (slugify_trimmed (B "- a, b -") H).
Defined.

Lemma slugify_slice_in_bounds_witness :
  B "a b" ≠ [] ∧
  let out := slugify_collapse (B "a b") false [] in
  slugify_first out 0 0 <= slugify_last out (length out - 1) + 1 <= length out.
Proof.
  assert (H : B "a b" ≠ []) by discriminate.
  split; [exact H|]. exact (slugify_slice_in_bounds (B "a b") H).
Defined.

(** A slug holds letters, digits and dashes only, and no two dashes in a
    row. *)
Theorem slugify_alphabet (x : bytes) :
  okchars (slugify x) = true ∧ nodd (slugify x) = true.
Proof.
  destruct (decide (x = [])) as [->|Hx]; [done|].
  by destruct (slugify_cases x Hx) as [[_ ->]|(c1 & c2 & _ & _ & _ & _ & ? & ?)].
Qed.

(** An identifier that is not registered is returned as it is, and is
    registered with count 0. *)
Theorem ensureUniqueHeadingID_unseen (id : string) (r : Renderer) (w : bytes) :
  headingIDs r !! id = None →
  ensureUniqueHeadingID id (r, w)
    = Ok (id, (set_headingIDs (<[id := 0%Z]> (headingIDs r)) r, w)).
Proof.
  intros Hid. unfold ensureUniqueHeadingID. simpl.
  replace (maxKeyLen (headingIDs r) + 3) with (S (maxKeyLen (headingIDs r) + 2)) by lia.
  simpl. rewrite Hid. simpl. by rewrite Hid.
Qed.

Lemma ensureUniqueHeadingID_unseen_witness :
  headingIDs (rendererWith 0) !! "intro" = None ∧
  ensureUniqueHeadingID "intro" (rendererWith 0, [])
    = Ok ("intro",
          (set_headingIDs (<["intro" := 0%Z]> (headingIDs (rendererWith 0)))
             (rendererWith 0), [])).
Proof.
  assert (H : headingIDs (rendererWith 0) !! "intro" = None) by reflexivity.
  split; [exact H|]. exact (ensureUniqueHeadingID_unseen "intro" (rendererWith 0) [] H).
Defined.

(** The calls of [ensureUniqueHeadingID] that the headings of a document
    make, one after the other. *)
Fixpoint ensureAll (ids : list string) : M (list string) :=
  match ids with
  | [] => mret []
  | id :: rest =>
      a ← ensureUniqueHeadingID id;
      l ← ensureAll rest;
      mret (a :: l)
  end.

Lemma ensureAll_fresh ids :
  ∀ r w, ∃ l r',
    ensureAll ids (r, w) = Ok (l, (r', w)) ∧ NoDup l ∧ length l = length ids ∧
    (∀ a, a ∈ l → headingIDs r !! a = None ∧ is_Some (headingIDs r' !! a)) ∧
    (∀ k, is_Some (headingIDs r !! k) → is_Some (headingIDs r' !! k)).
Proof.
  induction ids as [|id rest IH]; intros r w.
  - exists [], r. split_and!; [done|constructor|done| |done].
    intros a Ha. by apply elem_of_nil in Ha.
  - simpl. munfold.
    destruct (ensureUniqueHeadingID_returns id r w)
      as (a & ids' & _ & -> & Hfresh & Hkeys).
    destruct (IH (set_headingIDs (<[a := 0%Z]> ids') r) w)
      as (l & r' & -> & Hnd & Hlen & Hl & Hgrow).
    simpl in *.
    assert (Ha : headingIDs r !! a = None).
    { destruct (headingIDs r !! a) eqn:Hl'; [|done].
      destruct (proj2 (Hkeys a)) as [? ?]; [by rewrite Hl'|congruence]. }
    assert (Hgrow1 : ∀ k, is_Some (headingIDs r !! k) → is_Some (<[a := 0%Z]> ids' !! k)).
    { intros k Hk. apply Hkeys in Hk. destruct (decide (a = k)) as [->|Hne].
      - rewrite lookup_insert_eq. eauto.
      - by rewrite lookup_insert_ne. }
    exists (a :: l), r'. split_and!; [done| |simpl; by rewrite Hlen| |].
    + constructor; [|done]. intros Hin. apply Hl in Hin as [Hnone _].
      by rewrite lookup_insert_eq in Hnone.
    + intros b [->|Hb]%elem_of_cons.
      * split; [done|]. apply Hgrow. rewrite lookup_insert_eq. eauto.
      * destruct (Hl b Hb) as [Hnone Hsome]. split; [|done].
        destruct (headingIDs r !! b) eqn:Hb'; [|done].
        destruct (Hgrow1 b) as [? Hx]; [by rewrite Hb'|]. congruence.
    + intros k Hk. by apply Hgrow, Hgrow1.
Qed.

(** Any sequence of calls in one session returns identifiers that differ from
    each other and from every identifier registered before; the registry
    only grows. *)
Theorem ensureAll_distinct (ids : list string) (r : Renderer) (w : bytes) :
  ∃ l r',
    ensureAll ids (r, w) = Ok (l, (r', w)) ∧ NoDup l ∧ length l = length ids ∧
    (∀ a, a ∈ l → headingIDs r !! a = None ∧ is_Some (headingIDs r' !! a)) ∧
    (∀ k, is_Some (headingIDs r !! k) → is_Some (headingIDs r' !! k)).
Proof. apply ensureAll_fresh. Qed.

Example ensureAll_abc :
  value (ensureAll ["a"; "a"; "a-1"; "a"; "b"; "a-1"] (rendererWith 0, []))
  = Some ["a"; "a-1"; "a-1-1"; "a-2"; "b"; "a-1-2"].
Proof. vm_compute. reflexivity. Qed.
(** ** What the sink strips *)

Lemma re_match_eq fuel r s k :
  re_match fuel r s k =
    match r with
    | Eps => k s
    | Cls p =>
        match s with
        | c :: s' => if p c then k s' else None
        | [] => None
        end
    | Cat r1 r2 => re_match fuel r1 s (fun s' => re_match fuel r2 s' k)
    | Alt r1 r2 =>
        match re_match fuel r1 s k with
        | Some rest => Some rest
        | None => re_match fuel r2 s k
        end
    | Star greedy r1 =>
        match fuel with
        | 0 => None
        | S fuel' =>
            let again :=
              re_match fuel r1 s (fun s' =>
                if length s' <? length s
                then re_match fuel' (Star greedy r1) s' k else None) in
            if greedy
            then match again with Some rest => Some rest | None => k s end
            else match k s with Some rest => Some rest | None => again end
        end
    end.
Proof. destruct fuel, r; reflexivity. Qed.

(** What is left after a match is the end of the input. *)
Lemma re_match_suffix fuel :
  ∀ r s k rest,
    (∀ s' rest', k s' = Some rest' → rest' `suffix_of` s') →
    re_match fuel r s k = Some rest → rest `suffix_of` s.
Proof.
  induction fuel as [|fuel IHfuel]; intros r; induction r as [|p|r1 IH1 r2 IH2|r1 IH1 r2 IH2|g r1 IH1];
    intros s k rest Hk; rewrite re_match_eq; try done.
  - apply Hk.
  - destruct s as [|c s']; [done|]. destruct (p c); [|done].
    intros Hrun%Hk. by apply suffix_cons_r.
  - apply IH1. intros s' rest'. by apply IH2.
  - destruct (re_match 0 r1 s k) eqn:H1; [intros [= <-]; by eapply IH1|by apply IH2].
  - apply Hk.
  - destruct s as [|c s']; [done|]. destruct (p c); [|done].
    intros Hrun%Hk. by apply suffix_cons_r.
  - apply IH1. intros s' rest'. by apply IH2.
  - destruct (re_match (S fuel) r1 s k) eqn:H1; [intros [= <-]; by eapply IH1|by apply IH2].
  - cbv zeta.
    assert (Hagain : ∀ rest',
              re_match (S fuel) r1 s
                (λ s', if length s' <? length s
                       then re_match fuel (Star g r1) s' k else None) = Some rest' →
              rest' `suffix_of` s).
    { intros rest'. apply IH1. intros s' rest''.
      destruct (length s' <? length s); [|done]. by apply IHfuel. }
    destruct g.
    + destruct (re_match (S fuel) r1 s _) eqn:H1; [intros [= <-]; by apply Hagain|apply Hk].
    + destruct (k s) eqn:H1; [intros [= <-]; by apply Hk|apply Hagain].
Qed.

(** The sink removes nothing but a prefix of what is written. *)
Theorem stripTags_suffix (d : bytes) : stripTags d `suffix_of` d.
Proof.
  unfold stripTags. destruct (re_match _ htmlTag d Some) as [rest|] eqn:Hrun; [|done].
  eapply re_match_suffix; [|done]. by intros s' rest' [= <-].
Qed.

(** A pattern that can only match at a [<]. *)
Inductive startsWithAngle : regex → Prop :=
  | SWA_chr : startsWithAngle (Chr "<")
  | SWA_cat r1 r2 : startsWithAngle r1 → startsWithAngle (Cat r1 r2)
  | SWA_alt r1 r2 : startsWithAngle r1 → startsWithAngle r2 → startsWithAngle (Alt r1 r2).

Lemma toLowerByte_angle c : toLowerByte c = toLowerByte "<" → c = "<"%char.
Proof. destruct c as [[] [] [] [] [] [] [] []]; vm_compute; congruence. Qed.

Lemma startsWithAngle_no_match r :
  startsWithAngle r →
  ∀ fuel s k, head s ≠ Some "<"%char → re_match fuel r s k = None.
Proof.
  induction 1 as [|r1 r2 _ IH|r1 r2 _ IH1 _ IH2]; intros fuel s k Hs;
    rewrite re_match_eq.
  - unfold Chr. destruct s as [|c s]; [done|].
    destruct (bool_decide (toLowerByte c = toLowerByte "<")) eqn:Hc; [|done].
    apply bool_decide_eq_true, toLowerByte_angle in Hc as ->. by destruct Hs.
  - by apply IH.
  - by rewrite IH1, IH2.
Qed.

Lemma htmlTag_startsWithAngle : startsWithAngle htmlTag.
Proof. repeat constructor. Qed.

(** The pattern is anchored at the start of the write and every tag starts
    with [<]: a write that does not start with [<] goes out unchanged,
    whatever tags it holds further on. *)
Theorem stripTags_not_at_angle (d : bytes) :
  head d ≠ Some "<"%char → stripTags d = d.
Proof.
  intros Hd. unfold stripTags.
  by rewrite (startsWithAngle_no_match _ htmlTag_startsWithAngle).
Qed.

Lemma stripTags_not_at_angle_witness :
  head (B "a<b>c") ≠ Some "<"%char ∧ stripTags (B "a<b>c") = B "a<b>c".
Proof.
  assert (H : head (B "a<b>c") ≠ Some "<"%char) by discriminate.
  split; [exact H|]. exact (stripTags_not_at_angle (B "a<b>c") H).
Defined.
(** ** Links inside alternative text *)

Lemma stripTags_close_a : stripTags (B "</a>") = [].
Proof. vm_compute. reflexivity. Qed.

(** Inside the alternative text of an image (suppression depth above 0) a
    link that is linked still writes its opening tag, which goes to the
    writer without passing the sink, while its closing tag is stripped: the
    anchor is left open. *)
Theorem link_in_alt_text_left_open EscapeHTML escLink
    (dest title dest' : bytes) (rel : bool) (r : Renderer) (w : bytes) :
  (0 < disableTags r)%Z →
  needSkipLink (Flags (opts r)) dest = false →
  addAbsPrefix dest (r, w) = Ok (dest', (r, w)) →
  isRelativeLink dest' = Ok rel →
  (∃ attrs,
     link EscapeHTML escLink dest title 0 true (r, w) =
       Ok (tt, (set_lastOutputLen 1 r, w ++ B ("<a " +:+ attrs +:+ ">"))))
  ∧ link EscapeHTML escLink dest title 0 false (r, w) =
      Ok (tt, (set_lastOutputLen 4 r, w)).
Proof.
  intros Hd Hskip Habs Hrel. split.
  - unfold link. munfold. simpl. rewrite Hskip.
    unfold linkEnter. munfold. rewrite Habs. simpl.
    rewrite (appendLinkAttrs_eq _ _ _ rel Hrel). simpl.
    set (X := if rel then [] else _).
    destruct (0 <? length title); rewrite outTag_eq; eexists; reflexivity.
  - unfold link. munfold. simpl. rewrite Hskip. unfold linkExit. simpl.
    rewrite outs_eq, (proj2 (Z.ltb_lt _ _) Hd), stripTags_close_a. simpl.
    by rewrite app_nil_r.
Qed.

Lemma link_in_alt_text_left_open_witness :
  (0 < disableTags altRenderer)%Z ∧
  needSkipLink (Flags (opts altRenderer)) (B "http://a.b/") = false ∧
  addAbsPrefix (B "http://a.b/") (altRenderer, []) = Ok (B "http://a.b/", (altRenderer, [])) ∧
  isRelativeLink (B "http://a.b/") = Ok false ∧
  (∃ attrs,
     link noEscape noEscape (B "http://a.b/") [] 0 true (altRenderer, []) =
       Ok (tt, (set_lastOutputLen 1 altRenderer, [] ++ B ("<a " +:+ attrs +:+ ">"))))
  ∧ link noEscape noEscape (B "http://a.b/") [] 0 false (altRenderer, []) =
      Ok (tt, (set_lastOutputLen 4 altRenderer, [])).
Proof.
  assert (H1 : (0 < disableTags altRenderer)%Z) by (simpl; lia).
  assert (H2 : needSkipLink (Flags (opts altRenderer)) (B "http://a.b/") = false)
    by reflexivity.
  assert (H3 : addAbsPrefix (B "http://a.b/") (altRenderer, [])
               = Ok (B "http://a.b/", (altRenderer, []))) by reflexivity.
  assert (H4 : isRelativeLink (B "http://a.b/") = Ok false) by reflexivity.
  split_and!; [exact H1|exact H2|exact H3|exact H4|..];
    apply (link_in_alt_text_left_open noEscape noEscape (B "http://a.b/") []
             (B "http://a.b/") false altRenderer [] H1 H2 H3 H4).
Defined.

(** ** The depth after a render *)

(** Without a hook, a render that returns leaves the suppression depth and
    the options as they were, whatever the tree. *)
Theorem Render_restores_depth EscapeHTML escLink
    (root : Node) (r r' : Renderer) (w w' : bytes) :
  RenderNodeHook (opts r) = None → inInt (disableTags r) →
  Render EscapeHTML escLink root (r, w) = Ok (tt, (r', w')) →
  disableTags r' = disableTags r ∧ opts r' = opts r.
Proof.
  intros Hhook Hint. unfold Render. cbv beta.
  destruct (Walk (renderVisit EscapeHTML escLink) [] None None root (r, w))
    as [[[stop n'] [r1 w1]]| |] eqn:Hwalk; simpl; [|done..].
  intros ?; simplify_eq.
  by destruct (Walk_balanced EscapeHTML escLink root _ _ _ _ _ _ _ _ _ Hhook Hint Hwalk)
    as (_ & _ & ? & ?).
Qed.

Definition nestedImages : Node :=
  MkNode (ImageData (B "i.png") None) []
    [MkNode TextData (B "a") [];
     MkNode (ImageData (B "j.png") None) [] [MkNode TextData (B "b") []]].

Lemma Render_restores_depth_witness :
  RenderNodeHook (opts (rendererWith 0)) = None ∧ inInt (disableTags (rendererWith 0)) ∧
  Render noEscape noEscape nestedImages (rendererWith 0, [])
    = Ok (tt, (set_lastOutputLen 4 (rendererWith 0),
               B ("<img src=" +:+ quoted "i.png" +:+ " alt=" +:+ quoted "ab" +:+ " />"))) ∧
  disableTags (set_lastOutputLen 4 (rendererWith 0)) = disableTags (rendererWith 0) ∧
  opts (set_lastOutputLen 4 (rendererWith 0)) = opts (rendererWith 0).
Proof.
  assert (H1 : RenderNodeHook (opts (rendererWith 0)) = None) by reflexivity.
  assert (H2 : inInt (disableTags (rendererWith 0))) by (unfold inInt; simpl; lia).
  assert (H3 : Render noEscape noEscape nestedImages (rendererWith 0, [])
               = Ok (tt, (set_lastOutputLen 4 (rendererWith 0),
                          B ("<img src=" +:+ quoted "i.png" +:+ " alt=" +:+ quoted "ab"
                             +:+ " />")))) by (vm_compute; reflexivity).
  split_and!; [exact H1|exact H2|exact H3|..];
    apply (Render_restores_depth noEscape noEscape nestedImages _ _ _ _ H1 H2 H3).
Defined.
(** ** More on the table of contents *)

(** The loops of [writeTOC] end within the fuel they are given: the closing
    loop brings the level down to [level] with one closing per step, the
    opening loop brings it up with one opening per step, and neither does
    anything when the level is already there. *)
Lemma tocCloseLoop_run fuel level tocLevel buf :
  Z.to_nat (tocLevel - level) <= fuel →
  tocCloseLoop fuel level tocLevel buf =
    Ok (Z.min level tocLevel,
        buf ++ concat (replicate (Z.to_nat (tocLevel - level)) (B tocClose))).
Proof.
  revert tocLevel buf. induction fuel as [|fuel IH]; intros tocLevel buf Hfuel; simpl.
  - destruct (level <? tocLevel)%Z eqn:Hlt; [apply Z.ltb_lt in Hlt; lia|].
    apply Z.ltb_ge in Hlt. replace (Z.to_nat (tocLevel - level)) with 0 by lia.
    simpl. rewrite app_nil_r. f_equal. f_equal. lia.
  - destruct (level <? tocLevel)%Z eqn:Hlt.
    + apply Z.ltb_lt in Hlt. rewrite IH by lia.
      replace (Z.to_nat (tocLevel - level)) with (S (Z.to_nat (tocLevel - 1 - level))) by lia.
      simpl. rewrite <- app_assoc. f_equal. f_equal. lia.
    + apply Z.ltb_ge in Hlt. replace (Z.to_nat (tocLevel - level)) with 0 by lia.
      simpl. rewrite app_nil_r. f_equal. f_equal. lia.
Qed.

Lemma tocOpenLoop_run fuel level tocLevel buf :
  Z.to_nat (level - tocLevel) <= fuel →
  tocOpenLoop fuel level tocLevel buf =
    Ok (Z.max level tocLevel,
        buf ++ concat (replicate (Z.to_nat (level - tocLevel)) (B tocOpen))).
Proof.
  revert tocLevel buf. induction fuel as [|fuel IH]; intros tocLevel buf Hfuel; simpl.
  - destruct (tocLevel <? level)%Z eqn:Hlt; [apply Z.ltb_lt in Hlt; lia|].
    apply Z.ltb_ge in Hlt. replace (Z.to_nat (level - tocLevel)) with 0 by lia.
    simpl. rewrite app_nil_r. f_equal. f_equal. lia.
  - destruct (tocLevel <? level)%Z eqn:Hlt.
    + apply Z.ltb_lt in Hlt. rewrite IH by lia.
      replace (Z.to_nat (level - tocLevel)) with (S (Z.to_nat (level - (tocLevel + 1)))) by lia.
      simpl. rewrite <- app_assoc. f_equal. f_equal. lia.
    + apply Z.ltb_ge in Hlt. replace (Z.to_nat (level - tocLevel)) with 0 by lia.
      simpl. rewrite app_nil_r. f_equal. f_equal. lia.
Qed.

(** What [writeTOC] writes between two entries: the move from the level
    [tocLevel] to the level [level]. *)
Definition tocTransition (level tocLevel : Z) : bytes :=
  if (level =? tocLevel)%Z then B tocSibling
  else if (level <? tocLevel)%Z
  then concat (replicate (Z.to_nat (tocLevel - level)) (B tocClose)) ++ B tocSibling
  else concat (replicate (Z.to_nat (level - tocLevel)) (B tocOpen)).

(** On entering a heading that is not a title block, at any level and from
    any level, [writeTOC] renames the heading [toc_n], writes the transition
    and the anchor, and is then at the level of the heading. *)
Theorem tocVisit_enters_heading EscapeHTML escLink
    (c : Cursor) (level : Z) (id : string) (s : tocState) :
  Data (node c) = HeadingData level id false →
  tocVisit EscapeHTML escLink c true s =
    Ok (GoToNext, HeadingData level ("toc_" +:+ Itoa (headingCount s)) false,
        {| inHeading := true; tocLevel := level;
           headingCount := wrap64 (headingCount s + 1); tocR := tocR s;
           buf := buf s ++ tocTransition level (tocLevel s)
                  ++ B ("<a href=" +:+ DQ +:+ "#toc_" +:+ Itoa (headingCount s)
                        +:+ DQ +:+ ">") |}).
Proof.
  intros Hdata. unfold tocVisit, tocTransition. rewrite Hdata.
  destruct (level =? tocLevel s)%Z eqn:Heq.
  - apply Z.eqb_eq in Heq. simpl. rewrite <- Heq. by rewrite <- app_assoc.
  - apply Z.eqb_neq in Heq. destruct (level <? tocLevel s)%Z eqn:Hlt.
    + apply Z.ltb_lt in Hlt. rewrite tocCloseLoop_run by lia. simpl.
      rewrite Z.min_l by lia. by rewrite <- !app_assoc.
    + apply Z.ltb_ge in Hlt. rewrite tocOpenLoop_run by lia. simpl.
      rewrite Z.max_l by lia. by rewrite <- !app_assoc.
Qed.

Lemma tocVisit_enters_heading_witness :
  let c := {| node := tocHeading 1 "h" []; ancestors := [DocumentData];
              Prev := None; Next := None |} in
  let s := {| inHeading := false; tocLevel := 3; headingCount := 7;
              tocR := rendererWith 0; buf := [] |} in
  Data (node c) = HeadingData 1 "h" false ∧
  tocVisit noEscape noEscape c true s =
    Ok (GoToNext, HeadingData 1 "toc_7" false,
        {| inHeading := true; tocLevel := 1; headingCount := 8; tocR := rendererWith 0;
           buf := B (tocClose +:+ tocClose +:+ tocSibling +:+ tocAnchor 7) |}).
Proof.
  intros c s. assert (H : Data (node c) = HeadingData 1 "h" false) by reflexivity.
  split; [exact H|].
  exact (tocVisit_enters_heading noEscape noEscape c 1 "h" s H).
Defined.

(** A heading that [writeTOC] lists: one that is not a title block. *)
Definition isTocHeading (d : NodeData) : bool :=
  match d with HeadingData _ _ false => true | _ => false end.

Fixpoint noTocHeading (n : Node) : bool :=
  match n with
  | MkNode d _ cs => negb (isTocHeading d) && forallb noTocHeading cs
  end.

Section NoHeadings.
Variables EscapeHTML escLink : bytes → bytes.

Lemma tocVisit_passes c entering s :
  isTocHeading (Data (node c)) = false → inHeading s = false →
  tocVisit EscapeHTML escLink c entering s = Ok (GoToNext, Data (node c), s).
Proof.
  intros Hd Hin. unfold tocVisit.
  destruct (Data (node c)) as [| | | | | | | | | | | | | | |? ? []| | | | | | | | |];
    try done; by rewrite Hin.
Qed.

Lemma Walk_no_headings n :
  noTocHeading n = true →
  ∀ anc prev next s, inHeading s = false →
    Walk (tocVisit EscapeHTML escLink) anc prev next n s = Ok (false, n, s).
Proof.
  induction n as [d lit cs IH] using Node_induction. simpl.
  intros [Hd Hcs]%andb_true_iff anc prev next s Hin. apply negb_true_iff in Hd.
  rewrite Walk_unfold, tocVisit_passes by done. simpl.
  assert (Hch : ∀ done,
            WalkChildren (tocVisit EscapeHTML escLink) (d :: anc) done cs s
            = Ok (false, rev done ++ cs, s)).
  { clear Hd. induction cs as [|ch cs IHcs]; intros done.
    - rewrite WalkChildren_nil. by rewrite app_nil_r.
    - simpl in Hcs. apply andb_true_iff in Hcs as [Hch Hcs].
      apply Forall_cons in IH as [IHch IH].
      rewrite WalkChildren_cons, IHch by done. simpl.
      rewrite IHcs by done. simpl. by rewrite <- app_assoc. }
  destruct (isContainer d); simpl; [|done].
  rewrite Hch. simpl. by rewrite tocVisit_passes.
Qed.

End NoHeadings.

(** On a document without a heading to list, [writeTOC] writes nothing, no
    [<nav>] either, leaves the document as it is and sets the last output
    length to 0. *)
Theorem writeTOC_no_headings EscapeHTML escLink (doc : Node) (r : Renderer) (w : bytes) :
  noTocHeading doc = true →
  writeTOC EscapeHTML escLink doc (r, w) = Ok (doc, (set_lastOutputLen 0 r, w)).
Proof.
  intros Hdoc. unfold writeTOC. cbv beta zeta.
  rewrite (Walk_no_headings EscapeHTML escLink doc Hdoc) by done. reflexivity.
Qed.

Lemma writeTOC_no_headings_witness :
  let doc := MkNode DocumentData []
               [MkNode ParagraphData [] [MkNode TextData (B "a") []];
                MkNode (HeadingData 1 "title" true) [] [MkNode TextData (B "t") []]] in
  noTocHeading doc = true ∧
  writeTOC noEscape noEscape doc (rendererWith TOC, [])
    = Ok (doc, (set_lastOutputLen 0 (rendererWith TOC), [])).
Proof.
  intros doc. assert (H : noTocHeading doc = true) by reflexivity.
  split; [exact H|].
  exact (writeTOC_no_headings noEscape noEscape doc (rendererWith TOC) [] H).
Defined.
(** ** Images inside alternative text *)

(** [addAbsPrefix] reads the options only. *)
Lemma addAbsPrefix_opts link dest r w r2 w2 :
  addAbsPrefix link (r, w) = Ok (dest, (r, w)) → opts r2 = opts r →
  addAbsPrefix link (r2, w2) = Ok (dest, (r2, w2)).
Proof.
  unfold addAbsPrefix. munfold. simpl. intros H Ho. rewrite Ho.
  destruct (bool_decide (AbsolutePrefix (opts r) ≠ "")); [|by simplify_eq].
  destruct (isRelativeLink link) as [rel| |]; simpl in *; [|done..].
  destruct (rel && _); by simplify_eq.
Qed.

(** The tags that the renderers of the inline kinds hand to the sink. *)
Definition inlineTags : list string :=
  ["<em>"; "</em>"; "<strong>"; "</strong>"; "<del>"; "</del>"; "<code>"; "</code>";
   "<tt>"; "</tt>"; "</a>"; "<br>"; "<br />"].

Lemma stripTags_inlineTags : Forall (fun t => stripTags (B t) = []) inlineTags.
Proof. repeat constructor; vm_compute; reflexivity. Qed.

(** An image that holds one link, which holds one text. *)
Definition linkedImage (dest : bytes) (title : option bytes)
    (ldest ltitle x : bytes) : Node :=
  MkNode (ImageData dest title) []
    [MkNode (LinkData ldest ltitle 0) [] [MkNode TextData x []]].

Section NestedImage.
Variables EscapeHTML escLink : bytes → bytes.

(** An image visited at a depth other than 0 writes nothing of its own. *)
Lemma Walk_nested_image dest dest' title lit cs anc prev next r w :
  RenderNodeHook (opts r) = None →
  has (Flags (opts r)) SkipImages = false →
  inInt (disableTags r) → disableTags r ≠ 0%Z →
  addAbsPrefix dest (r, w) = Ok (dest', (r, w)) →
  Walk (renderVisit EscapeHTML escLink) anc prev next
       (MkNode (ImageData dest title) lit cs) (r, w) =
    '(_, _, (r2, w2)) ←
       WalkChildren (renderVisit EscapeHTML escLink) (ImageData dest title :: anc)
         [] cs (set_disableTags (wrap64 (disableTags r + 1)) r, w);
    Ok (false, MkNode (ImageData dest title) lit cs,
        (set_disableTags (disableTags r) r2, w2)).
Proof.
  intros Hhook Hskip Hint Hne Habs.
  rewrite Walk_unfold, renderVisit_no_hook by done.
  rewrite (renderKind_image _ _ _ _ _ _ dest title) by done.
  unfold image. rewrite (imageEnter_eq _ _ _ _ _ Habs).
  apply Z.eqb_neq in Hne. rewrite Hne. simpl. rewrite app_nil_r.
  destruct (WalkChildren _ _ [] cs _) as [[[stop cs'] [r2 w2]]| |] eqn:Hch;
    simpl; [|done..].
  apply (WalkChildren_balanced EscapeHTML escLink) in Hch as (-> & -> & Ho & Hd);
    [|apply Forall_forall; intros; apply Walk_balanced|done|apply wrap64_inInt].
  simpl in *. rewrite renderVisit_no_hook by congruence.
  rewrite (renderKind_image _ _ _ _ _ _ dest title) by (done || congruence).
  unfold image. rewrite imageExit_eq. simpl.
  rewrite Hd, wrap64_succ_pred, Hne by done. simpl. by rewrite app_nil_r.
Qed.

(** What the sink keeps of a write at a positive depth. *)
Lemma outs_in_alt_text s r w :
  (0 < disableTags r)%Z →
  ∃ kept,
    outs s (r, w) = Ok (tt, (set_lastOutputLen (len s) r, w ++ kept)) ∧
    kept `suffix_of` B s ∧
    (head (B s) ≠ Some "<"%char → kept = B s) ∧
    (s ∈ inlineTags → kept = []).
Proof.
  intros Hd. exists (stripTags (B s)). split_and!.
  - by rewrite outs_eq, (proj2 (Z.ltb_lt _ _) Hd), B_S.
  - unfold stripTags.
    destruct (re_match _ htmlTag (B s) Some) as [rest|] eqn:Hrun; [|done].
    eapply re_match_suffix; [|done]. by intros s' rest' [= <-].
  - intros Hs. unfold stripTags.
    by rewrite (startsWithAngle_no_match _ htmlTag_startsWithAngle).
  - intros Hin. by apply (proj1 (Forall_forall _ _) stripTags_inlineTags).
Qed.

(** The opening tag of an anchor, as [linkEnter] writes it. *)
Definition anchorOpen (flags : Z) (dest' title : bytes) (rel : bool) : bytes :=
  B ("<a " +:+
     join ([hrefAttr escLink dest']
           ++ (if rel then [] else targetAttrs flags ++ relAttrs flags)
           ++ titleAttrs EscapeHTML title) " "
     +:+ ">").

Lemma link_enter_eq dest title dest' rel r w :
  needSkipLink (Flags (opts r)) dest = false →
  addAbsPrefix dest (r, w) = Ok (dest', (r, w)) →
  isRelativeLink dest' = Ok rel →
  link EscapeHTML escLink dest title 0 true (r, w) =
    Ok (tt, (set_lastOutputLen 1 r, w ++ anchorOpen (Flags (opts r)) dest' title rel)).
Proof.
  intros Hskip Habs Hrel. unfold link. munfold. simpl. rewrite Hskip.
  unfold linkEnter. munfold. rewrite Habs. simpl.
  rewrite (appendLinkAttrs_eq _ _ _ rel Hrel). simpl.
  unfold anchorOpen, titleAttrs, hrefAttr.
  set (X := if rel then [] else _).
  destruct (0 <? length title); rewrite outTag_eq; [reflexivity|].
  rewrite app_nil_r. reflexivity.
Qed.

Lemma link_exit_in_alt_text dest title r w :
  (0 < disableTags r)%Z →
  needSkipLink (Flags (opts r)) dest = false →
  link EscapeHTML escLink dest title 0 false (r, w) = Ok (tt, (set_lastOutputLen 4 r, w)).
Proof.
  intros Hd Hskip. unfold link. munfold. simpl. rewrite Hskip. unfold linkExit. simpl.
  rewrite outs_eq, (proj2 (Z.ltb_lt _ _) Hd), stripTags_close_a. simpl.
  by rewrite app_nil_r.
Qed.

Lemma text_in_link c r w :
  has (Flags (opts r)) Smartypants = false →
  (∃ dest title noteID, Parent c = Some (LinkData dest title noteID)) →
  text EscapeHTML escLink c (r, w) = Ok (tt, (r, w ++ escLink (Literal (node c)))).
Proof.
  intros Hsp (dest & title & noteID & Hp). unfold text. munfold. simpl.
  by rewrite Hsp, Hp.
Qed.

Lemma renderKind_link c entering st dest title noteID :
  Data (node c) = LinkData dest title noteID →
  renderKind EscapeHTML escLink c entering st =
    '(_, st') ← link EscapeHTML escLink dest title noteID entering st;
    Ok (GoToNext, st').
Proof.
  intros Hdata. unfold renderKind. rewrite Hdata. munfold.
  by destruct (link _ _ _ _ _ _ _) as [[[] ?]| |].
Qed.

Lemma renderKind_text c entering st :
  Data (node c) = TextData →
  renderKind EscapeHTML escLink c entering st =
    '(_, st') ← text EscapeHTML escLink c st;
    Ok (GoToNext, st').
Proof.
  intros Hdata. unfold renderKind. rewrite Hdata. munfold.
  by destruct (text _ _ _ _) as [[[] ?]| |].
Qed.

Local Arguments anchorOpen : simpl never.

(** An image at a positive depth that holds a link: the opening tag of the
    anchor is written in full, the text follows, the closing tag is
    stripped. *)
Lemma Walk_linkedImage dest dest' title ldest ldest' ltitle rel x anc prev next r w :
  RenderNodeHook (opts r) = None →
  has (Flags (opts r)) SkipImages = false →
  has (Flags (opts r)) Smartypants = false →
  (0 < disableTags r)%Z → inInt (disableTags r + 1) →
  addAbsPrefix dest (r, w) = Ok (dest', (r, w)) →
  needSkipLink (Flags (opts r)) ldest = false →
  addAbsPrefix ldest (r, w) = Ok (ldest', (r, w)) →
  isRelativeLink ldest' = Ok rel →
  Walk (renderVisit EscapeHTML escLink) anc prev next
       (linkedImage dest title ldest ltitle x) (r, w) =
    Ok (false, linkedImage dest title ldest ltitle x,
        (set_lastOutputLen 4 r,
         w ++ anchorOpen (Flags (opts r)) ldest' ltitle rel ++ escLink x)).
Proof.
  intros Hhook Hskip Hsp Hpos Hint1 Habs Hlskip Hlabs Hrel.
  assert (Hint : inInt (disableTags r)) by (unfold inInt in *; lia).
  unfold linkedImage.
  match goal with |- _ = ?R => set (rhs := R) end.
  rewrite (Walk_nested_image _ dest') by (done || lia).
  rewrite (wrap64_id _ Hint1).
  set (r1 := set_disableTags (disableTags r + 1) r).
  assert (Ho1 : opts r1 = opts r) by done.
  assert (Hd1 : disableTags r1 = (disableTags r + 1)%Z) by done.
  assert (Hr : set_disableTags (disableTags r) (set_lastOutputLen 4 (set_lastOutputLen 1 r1))
               = set_lastOutputLen 4 r) by (by destruct r).
  clearbody r1.
  rewrite WalkChildren_cons, Walk_unfold, renderVisit_no_hook by congruence.
  rewrite (renderKind_link _ _ _ ldest ltitle 0) by done.
  rewrite (link_enter_eq _ _ ldest' rel)
    by (try apply (addAbsPrefix_opts _ _ r w); congruence).
  simpl. rewrite ?WalkChildren_cons, ?Walk_unfold.
  rewrite renderVisit_no_hook by (simpl; congruence).
  rewrite renderKind_text by done.
  rewrite text_in_link; [|simpl; congruence|by eexists _, _, _].
  simpl. rewrite ?WalkChildren_nil. simpl.
  rewrite renderVisit_no_hook by (simpl; congruence).
  rewrite (renderKind_link _ _ _ ldest ltitle 0) by done.
  rewrite link_exit_in_alt_text by (simpl; (lia || congruence)).
  simpl. rewrite ?WalkChildren_nil. simpl.
  subst rhs. by rewrite Hr, Ho1, <- app_assoc.
Qed.

End NestedImage.



(** ** Relative links, prefixes and small attributes *)

Lemma hasPrefix_prefix (b p : bytes) : hasPrefix b p = true ↔ p `prefix_of` b.
Proof.
  unfold hasPrefix. rewrite andb_true_iff, Nat.leb_le, bool_decide_eq_true.
  apply prefix_split.
Qed.

(** A destination that is not empty is relative exactly when it starts with
    [#], with a [/] that no second [/] follows, with [./] or with [../];
    [isRelativeLink] does not panic on it. *)
Theorem isRelativeLink_iff (c : ascii) (rest : bytes) :
  ∃ rel, isRelativeLink (c :: rest) = Ok rel ∧
    (rel = true ↔
       c = "#"%char ∨ (c = "/"%char ∧ head rest ≠ Some "/"%char)
       ∨ B "./" `prefix_of` (c :: rest) ∨ B "../" `prefix_of` (c :: rest)).
Proof.
  unfold isRelativeLink.
  destruct (decide (c = "#"%char)) as [->|Hhash].
  { exists true. split; [reflexivity|]. split; [by left|done]. }
  rewrite (bool_decide_eq_false_2 (c = "#"%char)) by done.
  destruct (decide (c = "/"%char)) as [->|Hslash].
  - destruct rest as [|c2 rest].
    { exists true. split; [reflexivity|]. split; [|done].
      intros _. right. left. by split. }
    destruct (decide (c2 = "/"%char)) as [->|Hc2].
    + exists false. split; [|split; [done|]].
      { cbn [length Nat.leb Nat.eqb andb].
        rewrite (bool_decide_eq_true_2 ("/"%char = "/"%char)) by done.
        rewrite bool_decide_eq_false_2 by (simpl; intros H; by apply H).
        cbn [andb].
        destruct (hasPrefix _ (B "./")) eqn:H1;
          [apply hasPrefix_prefix in H1; by destruct H1 as [k [=]]|].
        destruct (hasPrefix _ (B "../")) eqn:H2;
          [apply hasPrefix_prefix in H2; by destruct H2 as [k [=]]|].
        done. }
      intros [H|[[_ H]|[[k H]|[k H]]]]; [done|by destruct H|done|done].
    + exists true. split; [|split; [|done]].
      * cbn [length Nat.leb andb]. rewrite (bool_decide_eq_true_2 ("/"%char = "/"%char)) by done.
        rewrite bool_decide_eq_true_2; [done|]. simpl. by intros [= ->].
      * intros _. right. left. split; [done|]. simpl. by intros [= ->].
  - rewrite (bool_decide_eq_false_2 (c = "/"%char)) by done.
    rewrite !andb_false_r.
    destruct (hasPrefix (c :: rest) (B "./")) eqn:H1.
    { exists true. split; [done|]. apply hasPrefix_prefix in H1. split; [|done].
      intros _. right. right. by left. }
    destruct (hasPrefix (c :: rest) (B "../")) eqn:H2.
    { exists true. split; [done|]. apply hasPrefix_prefix in H2. split; [|done].
      intros _. right. right. by right. }
    exists false. split; [done|]. split; [done|].
    intros [?|[[? _]|[H|H]]]; [done|done| |]; apply hasPrefix_prefix in H; congruence.
Qed.

(** The class attribute of a code block names the information string up to
    its first space or tab, and holds neither; an empty information string
    gives no attribute. *)
Theorem appendLanguageAttr_language (attrs : list string) (info : bytes) :
  appendLanguageAttr attrs [] = attrs ∧
  (info ≠ [] →
     ∃ lang,
       appendLanguageAttr attrs info
         = attrs ++ ["class=" +:+ DQ +:+ "language-" +:+ S_ lang +:+ DQ] ∧
       lang `prefix_of` info ∧
       Forall (fun c => c ≠ ascii_of_nat 9 ∧ c ≠ " "%char) lang ∧
       (lang = info ∨
        ∃ c rest, info = lang ++ c :: rest ∧ (c = ascii_of_nat 9 ∨ c = " "%char))).
Proof.
  split; [done|]. intros Hinfo. exists (take (endOfLang info) info).
  split_and!.
  - unfold appendLanguageAttr. destruct info; [done|]. by rewrite bool_decide_eq_false_2.
  - apply prefix_take.
  - clear Hinfo. induction info as [|c info IH]; simpl; [constructor|].
    destruct (bool_decide (c = ascii_of_nat 9)) eqn:H1; simpl; [constructor|].
    destruct (bool_decide (c = " "%char)) eqn:H2; simpl; constructor; [|done].
    apply bool_decide_eq_false in H1, H2. done.
  - clear Hinfo. induction info as [|c info IH]; simpl; [by left|].
    destruct (bool_decide (c = ascii_of_nat 9)) eqn:H1; simpl.
    { right. apply bool_decide_eq_true in H1. exists c, info. auto. }
    destruct (bool_decide (c = " "%char)) eqn:H2; simpl.
    { right. apply bool_decide_eq_true in H2. exists c, info. auto. }
    destruct IH as [->|(c' & rest & Heq & Hc')]; [by left|].
    right. exists c', rest. split; [by rewrite <- Heq|done].
Qed.

Lemma appendLanguageAttr_language_witness :
  B "go run" ≠ [] ∧
  ∃ lang,
    appendLanguageAttr [] (B "go run")
      = [] ++ ["class=" +:+ DQ +:+ "language-" +:+ S_ lang +:+ DQ] ∧
    lang `prefix_of` B "go run" ∧
    Forall (fun c => c ≠ ascii_of_nat 9 ∧ c ≠ " "%char) lang ∧
    (lang = B "go run" ∨
     ∃ c rest, B "go run" = lang ++ c :: rest ∧ (c = ascii_of_nat 9 ∨ c = " "%char)).
Proof.
  assert (H : B "go run" ≠ []) by discriminate.
  split; [exact H|]. exact (proj2 (appendLanguageAttr_language [] (B "go run")) H).
Defined.

(** The opening and the closing tag of a heading name the same element at
    every level: [h1] to [h5] for the levels 1 to 5, and [h6] for every other
    level, those below 1 too. *)
Theorem heading_tags_match (level : Z) :
  ∃ n : string,
    headingOpenTagFromLevel level = "<h" +:+ n ∧
    headingCloseTagFromLevel level = "</h" +:+ n +:+ ">" ∧
    n = if (1 <=? level)%Z && (level <=? 5)%Z then Itoa level else "6".
Proof.
  unfold headingOpenTagFromLevel, headingCloseTagFromLevel.
  destruct (level <? 1)%Z eqn:H1.
  { apply Z.ltb_lt in H1. exists "6". rewrite (proj2 (Z.leb_gt _ _)) by lia. done. }
  destruct (5 <? level)%Z eqn:H5.
  { apply Z.ltb_lt in H5. exists "6".
    rewrite (proj2 (Z.leb_gt level 5)) by lia. by rewrite andb_false_r. }
  apply Z.ltb_ge in H1, H5.
  assert (Hl : (level = 1 ∨ level = 2 ∨ level = 3 ∨ level = 4 ∨ level = 5)%Z) by lia.
  destruct Hl as [-> | [-> | [-> | [-> | ->] ] ] ]; eexists; split_and!; reflexivity.
Qed.

(** A new line counts as output: two [cr] in a row write two new lines when
    the last write was not empty, and nothing when it was. *)
Theorem cr_twice (r : Renderer) (w : bytes) :
  (cr;; cr) (r, w) =
    if (0 <? lastOutputLen r)%Z
    then Ok (tt, (set_lastOutputLen 1 r, w ++ B (NL +:+ NL)))
    else Ok (tt, (r, w)).
Proof.
  munfold. rewrite cr_eq. destruct (0 <? lastOutputLen r)%Z eqn:Hl.
  - rewrite cr_eq. simpl. by rewrite <- app_assoc.
  - rewrite cr_eq. by rewrite Hl.
Qed.

(** [addAbsPrefix] leaves a destination alone when no prefix is configured,
    when it is not relative, and when it starts with a dot; otherwise it puts
    the prefix in front, and a [/] after it unless the destination starts
    with one. *)
Theorem addAbsPrefix_cases (c : ascii) (rest : bytes) (rel : bool) (r : Renderer) (w : bytes) :
  isRelativeLink (c :: rest) = Ok rel →
  addAbsPrefix (c :: rest) (r, w) =
    Ok (if bool_decide (AbsolutePrefix (opts r) ≠ "") && rel
           && bool_decide (c ≠ "."%char)
        then B (AbsolutePrefix (opts r)) ++ (if bool_decide (c = "/"%char) then [] else B "/")
             ++ c :: rest
        else c :: rest,
        (r, w)).
Proof.
  intros Hrel. unfold addAbsPrefix. revert Hrel.
  generalize (isRelativeLink (c :: rest)). intros ? ->. munfold. simpl.
  destruct (bool_decide (AbsolutePrefix (opts r) ≠ "")); [|done]. simpl.
  destruct rel; [|done]. simpl.
  destruct (decide (c = "."%char)) as [->|Hdot]; [done|].
  rewrite (bool_decide_eq_true_2 (Some c ≠ Some "."%char)) by congruence.
  rewrite (bool_decide_eq_true_2 (c ≠ "."%char)) by done. simpl.
  change (String c (S_ rest)) with (S_ (c :: rest)).
  destruct (decide (c = "/"%char)) as [->|Hslash].
  - rewrite (bool_decide_eq_false_2 (Some "/"%char ≠ Some "/"%char)) by (intros H; by apply H).
    rewrite (bool_decide_eq_true_2 ("/"%char = "/"%char)) by done.
    by rewrite B_app, B_S.
  - rewrite (bool_decide_eq_true_2 (Some c ≠ Some "/"%char)) by congruence.
    rewrite (bool_decide_eq_false_2 (c = "/"%char)) by done.
    by rewrite !B_app, B_S, <- app_assoc.
Qed.

Lemma addAbsPrefix_cases_witness :
  let r := NewRenderer noSmartypants (optsWith 0 "http://a.b") in
  isRelativeLink (B "#top") = Ok true ∧
  addAbsPrefix (B "#top") (r, []) = Ok (B "http://a.b/#top", (r, [])).
Proof.
  intros r. assert (H : isRelativeLink (B "#top") = Ok true) by reflexivity.
  split; [exact H|]. exact (addAbsPrefix_cases "#" (B "top") true r [] H).
Defined.

(** ** Instances of the scanning and identifier properties *)

Lemma findHTMLTagPos_position_witness :
  findHTMLTagPos (B "<div>") "div" = Ok (true, 4%Z) ∧
  (1 <= 4)%Z ∧ (4 < Z.of_nat (length (B "<div>")))%Z ∧ head (B "<div>") = Some "<"%char.
Proof.
  assert (Hc : findHTMLTagPos (B "<div>") "div" = Ok (true, 4%Z)) by (vm_compute; reflexivity).
  assert (Hne : B "<div>" ≠ []) by discriminate.
  destruct (findHTMLTagPos_position (B "<div>") "div")
    as (_ & found & pos & Hrun & _ & Htrue).
  assert (Hfp : found = true ∧ pos = 4%Z) by (split; congruence).
  destruct Hfp as [-> ->].
  destruct (Htrue eq_refl) as [H1 H2]. destruct (H2 Hne) as [H3 H4].
  split_and!; [exact Hc|exact H1|exact H3|exact H4].
Defined.

Lemma ensureAll_distinct_witness :
  ∃ r',
    ensureAll ["a"; "a"; "b"] (rendererWith 0, []) = Ok (["a"; "a-1"; "b"], (r', [])) ∧
    NoDup ["a"; "a-1"; "b"] ∧
    headingIDs (rendererWith 0) !! "a-1" = None ∧ is_Some (headingIDs r' !! "a-1").
Proof.
  destruct (ensureAll_distinct ["a"; "a"; "b"] (rendererWith 0) [])
    as (l & r' & Hrun & Hnd & _ & Hfresh & _).
  assert (Hv : value (ensureAll ["a"; "a"; "b"] (rendererWith 0, []))
               = Some ["a"; "a-1"; "b"]) by (vm_compute; reflexivity).
  assert (Hl : l = ["a"; "a-1"; "b"]).
  { revert Hv. generalize (ensureAll ["a"; "a"; "b"] (rendererWith 0, [])) Hrun.
    intros m ->. unfold value. simpl. congruence. }
  subst l. exists r'.
  assert (Hin : "a-1" ∈ ["a"; "a-1"; "b"]) by (apply list_elem_of_In; simpl; auto).
  split_and!; [exact Hrun|exact Hnd|apply (Hfresh _ Hin)|apply (Hfresh _ Hin)].
Defined.
